(** * MindWell client-side behaviour (js/main.js)

    A shallow embedding of the navigation controller, the crisis modal
    controller and the debounce utility of [js/main.js].  The browser is
    modelled by explicit state passing: the page is a record holding the
    [AppState] object, the [DOM] element cache, the parts of [window] and
    [document] the handlers read or write, and a log of telemetry calls.
    A handler is a function on that record; the one handler that can raise
    a JavaScript exception returns a [Completion]. *)

From stdpp Require Import base option list strings gmap.
From Stdlib Require Import ZArith Lia Ascii.

Set Warnings "-register-all".

Open Scope string_scope.
Open Scope list_scope.

(** ** Elements *)

(** An element's own mutable state: tag name, [classList] (a DOMTokenList,
    an ordered list of tokens) and its attributes. *)
Record Element := mkElement {
  tagName : string;
  classList : list string;
  attributes : gmap string string
}.

(** A parsed DOM subtree. *)
Inductive Node :=
| El (e : Element) (children : list Node)
| Text (data : string).

Module ClassList.
(** [classList.contains(tok)] *)
Definition contains (tok : string) (l : list string) : bool :=
  bool_decide (tok ∈ l).

(** [classList.add(tok)]: appended unless already present. *)
Definition add (tok : string) (l : list string) : list string :=
  if contains tok l then l else l ++ [tok].

(** [classList.remove(tok)] *)
Definition remove (tok : string) (l : list string) : list string :=
  filter (λ t, t ≠ tok) l.

(** [classList.toggle(tok)]: removed when present, appended otherwise. *)
Definition toggle (tok : string) (l : list string) : list string :=
  if contains tok l then remove tok l else l ++ [tok].
End ClassList.

Definition withClassList (f : list string → list string) (e : Element) : Element :=
  {| tagName := tagName e; classList := f (classList e); attributes := attributes e |}.

(** [e.getAttribute(name)]: [None] stands for JavaScript's [null]. *)
Definition getAttribute (name : string) (e : Element) : option string :=
  attributes e !! name.

(** [e.setAttribute(name, value)] *)
Definition setAttribute (name value : string) (e : Element) : Element :=
  {| tagName := tagName e; classList := classList e;
     attributes := <[name := value]> (attributes e) |}.

(** [b.toString()] for a boolean. *)
Definition toString (b : bool) : string := if b then "true" else "false".

(** [s.substring(1)] *)
Definition substring1 (s : string) : string :=
  match s with
  | EmptyString => EmptyString
  | String _ rest => rest
  end.

(** [s.startsWith('#')] *)
Definition startsWithHash (s : string) : bool :=
  match s with
  | String c _ => bool_decide (c = "#"%char)
  | EmptyString => false
  end.

(** ** Page state *)

(** [const AppState = { currentUser, currentPage, moodData, navigationActive }] *)
Record AppStateT := mkAppState {
  currentUser : option string;
  currentPage : string;
  moodData : list string;
  navigationActive : bool
}.

(** The entries of the [DOM] cache used by the navigation controller.
    [None] is a [querySelector] that found nothing; [navLinks] is the
    NodeList of [querySelectorAll('.nav-link')].  The cache holds
    references, so the elements stored here are the elements themselves. *)
Record DOMT := mkDOM {
  navToggle : option Element;
  navMenu : option Element;
  navLinks : list Element
}.

(** A reference to an element of the document body: the identity of a
    child of [document.body] and the path of child indices below it. *)
Definition NodeRef : Type := nat * list nat.

(** The two click listeners installed by [createEmergencyModal], as data.
    Each closure captures the modal it was created for.  They are the
    only click listeners ever put on a node the script creates. *)
Inductive Handler :=
| closeModalClick (modal : nat)
| backdropClick (modal : nat).

Record WindowT := mkWindow {
  innerWidth : Z;
  locationHash : string;
  scrolledTo : option Z
}.

Record DocumentT := mkDocument {
  sections : list (string * Z);
  headerOffsetHeight : option Z;
  bodyClassList : list string;
  bodyChildren : list (nat * Node);
  clickListeners : list (NodeRef * Handler);
  nextNode : nat;
  activeElement : option NodeRef
}.

Record World := mkWorld {
  AppState : AppStateT;
  DOM : DOMT;
  window : WindowT;
  document : DocumentT;
  tracked : list string
}.

Definition withAppState (f : AppStateT → AppStateT) (w : World) : World :=
  {| AppState := f (AppState w); DOM := DOM w; window := window w;
     document := document w; tracked := tracked w |}.

Definition withDOM (f : DOMT → DOMT) (w : World) : World :=
  {| AppState := AppState w; DOM := f (DOM w); window := window w;
     document := document w; tracked := tracked w |}.

Definition withWindow (f : WindowT → WindowT) (w : World) : World :=
  {| AppState := AppState w; DOM := DOM w; window := f (window w);
     document := document w; tracked := tracked w |}.

Definition withDocument (f : DocumentT → DocumentT) (w : World) : World :=
  {| AppState := AppState w; DOM := DOM w; window := window w;
     document := f (document w); tracked := tracked w |}.

Definition track (entry : string) (w : World) : World :=
  {| AppState := AppState w; DOM := DOM w; window := window w;
     document := document w; tracked := tracked w ++ [entry] |}.

Definition setNavigationActive (b : bool) (a : AppStateT) : AppStateT :=
  {| currentUser := currentUser a; currentPage := currentPage a;
     moodData := moodData a; navigationActive := b |}.

Definition setCurrentPage (p : string) (a : AppStateT) : AppStateT :=
  {| currentUser := currentUser a; currentPage := p;
     moodData := moodData a; navigationActive := navigationActive a |}.

Definition withNavToggle (f : Element → Element) (d : DOMT) : DOMT :=
  {| navToggle := f <$> navToggle d; navMenu := navMenu d; navLinks := navLinks d |}.

Definition withNavMenu (f : Element → Element) (d : DOMT) : DOMT :=
  {| navToggle := navToggle d; navMenu := f <$> navMenu d; navLinks := navLinks d |}.

Definition withNavLinks (f : list Element → list Element) (d : DOMT) : DOMT :=
  {| navToggle := navToggle d; navMenu := navMenu d; navLinks := f (navLinks d) |}.

Definition setInnerWidth (px : Z) (v : WindowT) : WindowT :=
  {| innerWidth := px; locationHash := locationHash v; scrolledTo := scrolledTo v |}.

Definition setLocationHash (h : string) (v : WindowT) : WindowT :=
  {| innerWidth := innerWidth v; locationHash := h; scrolledTo := scrolledTo v |}.

Definition setScrolledTo (top : Z) (v : WindowT) : WindowT :=
  {| innerWidth := innerWidth v; locationHash := locationHash v; scrolledTo := Some top |}.

Definition withBodyClassList (f : list string → list string) (d : DocumentT) : DocumentT :=
  {| sections := sections d; headerOffsetHeight := headerOffsetHeight d;
     bodyClassList := f (bodyClassList d); bodyChildren := bodyChildren d;
     clickListeners := clickListeners d; nextNode := nextNode d;
     activeElement := activeElement d |}.

Definition withBodyChildren (f : list (nat * Node) → list (nat * Node))
    (d : DocumentT) : DocumentT :=
  {| sections := sections d; headerOffsetHeight := headerOffsetHeight d;
     bodyClassList := bodyClassList d; bodyChildren := f (bodyChildren d);
     clickListeners := clickListeners d; nextNode := nextNode d;
     activeElement := activeElement d |}.

Definition addClickListener (target : NodeRef) (h : Handler) (d : DocumentT) : DocumentT :=
  {| sections := sections d; headerOffsetHeight := headerOffsetHeight d;
     bodyClassList := bodyClassList d; bodyChildren := bodyChildren d;
     clickListeners := clickListeners d ++ [(target, h)]; nextNode := nextNode d;
     activeElement := activeElement d |}.

Definition setNextNode (n : nat) (d : DocumentT) : DocumentT :=
  {| sections := sections d; headerOffsetHeight := headerOffsetHeight d;
     bodyClassList := bodyClassList d; bodyChildren := bodyChildren d;
     clickListeners := clickListeners d; nextNode := n;
     activeElement := activeElement d |}.

Definition setActiveElement (r : NodeRef) (d : DocumentT) : DocumentT :=
  {| sections := sections d; headerOffsetHeight := headerOffsetHeight d;
     bodyClassList := bodyClassList d; bodyChildren := bodyChildren d;
     clickListeners := clickListeners d; nextNode := nextNode d;
     activeElement := Some r |}.

(** A JavaScript exception. *)
Inductive JSError := TypeError.

(** How a handler ends: normally, or by throwing.  The state at the throw
    is kept, since the mutations made before it are not rolled back. *)
Inductive Completion :=
| Normal (w : World)
| Throw (e : JSError) (w : World).

(** ** Navigation controller *)

(** [function toggleMobileNav()] *)
Definition toggleMobileNav (w : World) : World :=
  let w := withAppState (λ a, setNavigationActive (negb (navigationActive a)) a) w in
  let w := withDOM (withNavMenu (withClassList (ClassList.toggle "active"))) w in
  let w := withDOM (withNavToggle (withClassList (ClassList.toggle "active"))) w in
  let expanded := navigationActive (AppState w) in
  let w := withDOM (withNavToggle (setAttribute "aria-expanded" (toString expanded))) w in
  withDOM (withNavMenu (setAttribute "aria-hidden" (toString (negb expanded)))) w.

(** [function scrollToSection(sectionId)]: [sections] maps the id of each
    section of the page to its [offsetTop]; [headerOffsetHeight] is the
    [offsetHeight] of the element matching [.header], if there is one. *)
Definition getElementById (sectionId : string) (d : DocumentT) : option Z :=
  snd <$> List.find (λ s, bool_decide (fst s = sectionId)) (sections d).

Definition scrollToSection (sectionId : string) (w : World) : World :=
  match getElementById sectionId (document w) with
  | Some offsetTop =>
      let headerHeight := default 0%Z (headerOffsetHeight (document w)) in
      let targetPosition := (offsetTop - headerHeight)%Z in
      withWindow (setScrolledTo targetPosition) w
  | None => w
  end.

(** [function trackNavigation(href)] *)
Definition trackNavigation (href : string) (w : World) : World :=
  track ("Navigation tracked: " +:+ href) w.

(** [function handleNavigation(event)], for a click whose [event.target]
    is the [i]-th navigation link itself ([handleNavigationInside] below is
    the same handler for a target inside a link; an index past the end of
    the list stands for no click at all).  [href.startsWith] is a property access
    on [href]: it throws a TypeError when [getAttribute] returned [null].
    [event.preventDefault()] only stops the browser's own navigation and
    leaves no trace in the state. *)
Definition handleNavigation (i : nat) (w : World) : Completion :=
  match navLinks (DOM w) !! i with
  | None => Normal w
  | Some link =>
      let href := getAttribute "href" link in
      let w := withDOM (withNavLinks (fmap (withClassList (ClassList.remove "active")))) w in
      let w := withDOM (withNavLinks (alter (withClassList (ClassList.add "active")) i)) w in
      let w := if navigationActive (AppState w) then toggleMobileNav w else w in
      match href with
      | None => Throw TypeError w
      | Some href =>
          let w :=
            if startsWithHash href then
              let targetId := substring1 href in
              let w := scrollToSection targetId w in
              withAppState (setCurrentPage targetId) w
            else w in
          Normal (trackNavigation href w)
      end
  end.

(** [function updateMobileNavigation()] *)
Definition updateMobileNavigation (w : World) : World :=
  let isMobile := (innerWidth (window w) <=? 768)%Z in
  if negb isMobile && navigationActive (AppState w) then
    let w := withAppState (setNavigationActive false) w in
    let w := withDOM (withNavMenu (withClassList (ClassList.remove "active"))) w in
    withDOM (withNavToggle (withClassList (ClassList.remove "active"))) w
  else w.

(** [function handleWindowResize()] *)
Definition handleWindowResize (w : World) : World :=
  let w :=
    if (768 <? innerWidth (window w))%Z && navigationActive (AppState w)
    then toggleMobileNav w else w in
  updateMobileNavigation w.

(** A resize event: the viewport takes its new width, then the listener
    registered on [window] runs. *)
Definition resize (px : Z) (w : World) : World :=
  handleWindowResize (withWindow (setInnerWidth px) w).

(** [function updateActiveNavigation()] *)
Definition updateActiveNavigation (w : World) : World :=
  let hash :=
    let h := substring1 (locationHash (window w)) in
    if bool_decide (h = "") then "home" else h in
  withDOM (withNavLinks (fmap (λ link,
    let href := getAttribute "href" link in
    if bool_decide (href = Some ("#" +:+ hash))
    then withClassList (ClassList.add "active") link
    else withClassList (ClassList.remove "active") link))) w.

(** [function handleKeyboardNavigation(event)], with [key] the value of
    [event.key]. *)
Definition handleKeyboardNavigation (key : string) (w : World) : World :=
  let w :=
    if bool_decide (key = "Escape") && navigationActive (AppState w)
    then toggleMobileNav w else w in
  if bool_decide (key = "Tab")
  then withDocument (withBodyClassList (ClassList.add "keyboard-nav")) w
  else w.

(** ** Trees: paths, descendants and selectors *)

(** The proper descendants of a node that are elements, in document
    order, each with its path of child indices. *)
Fixpoint descendants (n : Node) : list (list nat * Element) :=
  match n with
  | Text _ => []
  | El _ children =>
      (fix go (i : nat) (cs : list Node) : list (list nat * Element) :=
         match cs with
         | [] => []
         | c :: rest =>
             match c with
             | El e _ => ([i], e) :: map (λ d, (i :: fst d, snd d)) (descendants c)
             | Text _ => []
             end ++ go (S i) rest
         end) 0 children
  end.

(** The node at a path below [n]. *)
Fixpoint nodeAt (path : list nat) (n : Node) : option Node :=
  match path with
  | [] => Some n
  | i :: rest =>
      match n with
      | El _ children => children !! i ≫= nodeAt rest
      | Text _ => None
      end
  end.

Definition elementOf (n : Node) : option Element :=
  match n with
  | El e _ => Some e
  | Text _ => None
  end.

(** [n.textContent] *)
Fixpoint textContent (n : Node) : string :=
  match n with
  | Text data => data
  | El _ children =>
      (fix go (cs : list Node) : string :=
         match cs with
         | [] => ""
         | c :: rest => textContent c +:+ go rest
         end) children
  end.

(** [n.querySelector(sel)] for a simple selector, given as a predicate on
    elements: the first matching descendant in document order. *)
Definition querySelector (sel : Element → bool) (n : Node) : option (list nat) :=
  fst <$> List.find (λ d, sel (snd d)) (descendants n).

(** The class selector [.c] and the type selector [t].  [tagName] is in
    upper case, as the DOM reports it for HTML elements. *)
Definition classSelector (c : string) (e : Element) : bool :=
  ClassList.contains c (classList e).

Definition typeSelector (t : string) (e : Element) : bool :=
  bool_decide (tagName e = t).

(** ** Crisis modal controller *)

Definition elem (tag : string) (classes : list string)
    (attrs : list (string * string)) (children : list Node) : Node :=
  El (mkElement tag classes (list_to_map attrs)) children.

(** The tree the HTML parser builds from the template assigned to
    [modal.innerHTML], under the [div] created with class
    [emergency-modal].  Text nodes holding only white space are left out;
    the [class] attribute is kept in [classList]. *)
Definition emergencyModalTree : Node :=
  elem "DIV" ["emergency-modal"] [] [
    elem "DIV" ["emergency-modal-content"] [] [
      elem "H2" [] [] [Text "🚨 Emergency Resources"];
      elem "DIV" ["emergency-resources"] [] [
        elem "DIV" ["emergency-item"] [] [
          elem "H3" [] [] [Text "Immediate Crisis Support"];
          elem "P" [] [] [elem "STRONG" [] [] [Text "988 Suicide & Crisis Lifeline"]];
          elem "A" ["btn"; "btn-emergency"] [("href", "tel:988")] [Text "Call 988"]
        ];
        elem "DIV" ["emergency-item"] [] [
          elem "H3" [] [] [Text "Emergency Services"];
          elem "P" [] [] [elem "STRONG" [] [] [Text "911 for immediate emergency"]];
          elem "A" ["btn"; "btn-emergency"] [("href", "tel:911")] [Text "Call 911"]
        ];
        elem "DIV" ["emergency-item"] [] [
          elem "H3" [] [] [Text "Crisis Text Line"];
          elem "P" [] [] [elem "STRONG" [] [] [Text "Text HOME to 741741"]];
          elem "A" ["btn"; "btn-help"] [("href", "sms:741741")] [Text "Text Support"]
        ]
      ];
      elem "BUTTON" ["btn"; "btn-secondary"; "close-modal"] [] [Text "Close"]
    ]
  ].

(** [function createEmergencyModal()]: the new element gets a fresh
    identity; the two [addEventListener] calls are recorded in
    [clickListeners].  The result is the modal and the state after. *)
Definition createEmergencyModal (w : World) : (nat * Node) * World :=
  let modal := nextNode (document w) in
  let w := withDocument (setNextNode (S modal)) w in
  let tree := emergencyModalTree in
  let w :=
    match querySelector (classSelector "close-modal") tree with
    | Some path => withDocument (addClickListener (modal, path) (closeModalClick modal)) w
    | None => w
    end in
  let w := withDocument (addClickListener (modal, []) (backdropClick modal)) w in
  ((modal, tree), w).

(** [function showEmergencyResources()] *)
Definition showEmergencyResources (w : World) : World :=
  let '((modal, tree), w) := createEmergencyModal w in
  let w := withDocument (withBodyChildren (λ cs, cs ++ [(modal, tree)])) w in
  match querySelector (typeSelector "BUTTON") tree with
  | Some firstFocusable => withDocument (setActiveElement (modal, firstFocusable)) w
  | None => w
  end.

(** [modal.remove()]: the node leaves the body; when the focused element
    was inside it, focus falls back to the body and no element of the
    tracked nodes is active. *)
Definition blurRemoved (modal : nat) (d : DocumentT) : DocumentT :=
  {| sections := sections d; headerOffsetHeight := headerOffsetHeight d;
     bodyClassList := bodyClassList d; bodyChildren := bodyChildren d;
     clickListeners := clickListeners d; nextNode := nextNode d;
     activeElement :=
       match activeElement d with
       | Some r => if bool_decide (fst r = modal) then None else Some r
       | None => None
       end |}.

Definition removeNode (modal : nat) (w : World) : World :=
  withDocument (λ d, blurRemoved modal (withBodyChildren (filter (λ c, fst c ≠ modal)) d)) w.

(** The element a reference points to. *)
Definition elementAt (r : NodeRef) (w : World) : option Element :=
  c ← List.find (λ c, bool_decide (fst c = fst r)) (bodyChildren (document w));
  nodeAt (snd r) (snd c) ≫= elementOf.

(** The body of each click listener, run for an event with the given
    [event.target]. *)
Definition runHandler (target : NodeRef) (h : Handler) (w : World) : World :=
  match h with
  | closeModalClick modal => removeNode modal w
  | backdropClick modal =>
      if bool_decide (target = (modal, [])) then removeNode modal w else w
  end.

(** [function handleSmoothScroll(event)], the click listener on
    [document]; [target] is the element [event.target]. *)
Definition handleSmoothScroll (target : Element) (w : World) : World :=
  if bool_decide (tagName target = "A")
     && from_option startsWithHash false (getAttribute "href" target)
  then scrollToSection (substring1 (default "" (getAttribute "href" target))) w
  else w.

(** The nodes a click bubbles through below the body: the target, its
    parent, and so on up to the child of the body. *)
Definition propagationPath (path : list nat) : list (list nat) :=
  map (λ k, take k path) (reverse (seq 0 (S (length path)))).

(** Dispatch of a click event at an element below a child of the body:
    the listeners on each node of the propagation path run in order of
    registration, then the listener on [document].  The children of the
    body kept in [bodyChildren] are the nodes the script itself creates,
    the modals and the skip link; the listeners installed at start-up sit
    on elements of the page's own markup, none of which is below such a
    node, so they do not run for these clicks. *)
Definition runListeners (target : NodeRef) (node : list nat)
    (listeners : list (NodeRef * Handler)) (w : World) : World :=
  foldl (λ w l,
           if bool_decide (fst l = (fst target, node))
           then runHandler target (snd l) w else w)
        w listeners.

Definition click (target : NodeRef) (w : World) : World :=
  match elementAt target w with
  | None => w
  | Some e =>
      let listeners := clickListeners (document w) in
      let w :=
        foldl (λ w node, runListeners target node listeners w)
              w (propagationPath (snd target)) in
      handleSmoothScroll e w
  end.

(** A keydown event: the only listener is the one on [document]. *)
Definition keydown (key : string) (w : World) : World :=
  handleKeyboardNavigation key w.

(** Whether a child of the body is an emergency modal, and how many are
    in the document. *)
Definition isEmergencyModal (c : nat * Node) : bool :=
  from_option (classSelector "emergency-modal") false (elementOf (snd c)).

Definition emergencyModals (w : World) : list (nat * Node) :=
  List.filter isEmergencyModal (bodyChildren (document w)).

Definition modalPresent (modal : nat) (w : World) : Prop :=
  modal ∈ fst <$> bodyChildren (document w).

(** The states the page can be in: node identities in use are below the
    next one to be handed out. *)
Definition wellFormed (w : World) : Prop :=
  (∀ c, c ∈ bodyChildren (document w) → fst c < nextNode (document w)) ∧
  (∀ l, l ∈ clickListeners (document w) → fst (fst l) < nextNode (document w)).

(** ** A sample page *)

Definition samplePage : World :=
  {| AppState := {| currentUser := None; currentPage := "home";
                    moodData := []; navigationActive := false |};
     DOM := {| navToggle := Some (mkElement "BUTTON" ["nav-toggle"]
                                    {["aria-expanded" := "false"]});
               navMenu := Some (mkElement "UL" ["nav-menu"]
                                  {["aria-hidden" := "true"]});
               navLinks := [ mkElement "A" ["nav-link"; "active"] {["href" := "#home"]};
                             mkElement "A" ["nav-link"] {["href" := "#features"]};
                             mkElement "A" ["nav-link"] {["href" := "#features-more"]};
                             mkElement "A" ["nav-link"] ∅ ] |};
     window := {| innerWidth := 1200; locationHash := ""; scrolledTo := None |};
     document := {| sections := [("home", 0%Z); ("features", 640%Z)];
                    headerOffsetHeight := Some 72%Z;
                    bodyClassList := []; bodyChildren := [];
                    clickListeners := []; nextNode := 0;
                    activeElement := None |};
     tracked := [] |}.

(** ** Utils.debounce *)

(** [Utils.debounce(func, wait)] against a browser event loop with a
    virtual clock.  [func] acts on some part [Target] of the world and
    takes its arguments as one value of type [Args]; it does not call the
    debounced function itself.  Times are in milliseconds and [wait] is a
    whole number of them. *)
Module Debounce.
Section debounce.
Context {Args Target : Type}.
Variable func : Args → Target → Target.
Variable wait : Z.

(** A pending timer.  Every timer here runs the closure [later] of one
    call of [executedFunction], which captured that call's [args]. *)
Record Timer := mkTimer {
  timerId : nat;
  due : Z;
  args : Args
}.

(** The event loop and the closure state of one debounced function:
    the clock, the timers not yet fired or cleared, the next timer id,
    the variable [timeout] ([None] while undefined), what [func] acts
    on, and the arguments of each invocation of [func] so far. *)
Record Loop := mkLoop {
  now : Z;
  pending : list Timer;
  nextTimer : nat;
  timeout : option nat;
  target : Target;
  invoked : list Args
}.

(** The page before the first call. *)
Definition fresh (t : Z) (x : Target) : Loop :=
  {| now := t; pending := []; nextTimer := 1; timeout := None;
     target := x; invoked := [] |}.

(** [clearTimeout(id)]: nothing happens for [undefined] or for an id
    that is not pending. *)
Definition clearTimeout (id : option nat) (l : Loop) : Loop :=
  {| now := now l;
     pending := List.filter (λ tm, negb (bool_decide (Some (timerId tm) = id))) (pending l);
     nextTimer := nextTimer l; timeout := timeout l;
     target := target l; invoked := invoked l |}.

(** The delay [setTimeout] works with: its second argument is converted
    to a 32-bit signed integer, wrapping around, and a negative result
    counts as zero. *)
Definition toInt32 (n : Z) : Z :=
  let m := (n mod 4294967296)%Z in
  if (m <? 2147483648)%Z then m else (m - 4294967296)%Z.

Definition timerDelay : Z := Z.max 0 (toInt32 wait).

(** [setTimeout(later, wait)] *)
Definition setTimeout (a : Args) (l : Loop) : nat * Loop :=
  (nextTimer l,
   {| now := now l;
      pending := pending l ++
                 [{| timerId := nextTimer l; due := now l + timerDelay; args := a |}];
      nextTimer := S (nextTimer l); timeout := timeout l;
      target := target l; invoked := invoked l |}).

(** [const later = () => { clearTimeout(timeout); func(...args); }] *)
Definition later (a : Args) (l : Loop) : Loop :=
  let l := clearTimeout (timeout l) l in
  {| now := now l; pending := pending l; nextTimer := nextTimer l;
     timeout := timeout l;
     target := func a (target l); invoked := invoked l ++ [a] |}.

(** [function executedFunction(...args)] *)
Definition executedFunction (a : Args) (l : Loop) : Loop :=
  let l := clearTimeout (timeout l) l in
  let '(id, l) := setTimeout a l in
  {| now := now l; pending := pending l; nextTimer := nextTimer l;
     timeout := Some id;
     target := target l; invoked := invoked l |}.

(** The timer the loop runs next: the earliest one that is due, and
    among equals the one set first. *)
Fixpoint earliest (ts : list Timer) : option Timer :=
  match ts with
  | [] => None
  | tm :: rest =>
      match earliest rest with
      | None => Some tm
      | Some tm' => if (due tm <=? due tm')%Z then Some tm else Some tm'
      end
  end.

Definition nextDue (t : Z) (l : Loop) : option Timer :=
  earliest (List.filter (λ tm, (due tm <=? t)%Z) (pending l)).

(** Firing a timer: it leaves the pending list, the clock is at its due
    time at the earliest, and its callback runs. *)
Definition fire (tm : Timer) (l : Loop) : Loop :=
  later (args tm)
    {| now := Z.max (now l) (due tm);
       pending := List.filter (λ tm', negb (bool_decide (timerId tm' = timerId tm))) (pending l);
       nextTimer := nextTimer l; timeout := timeout l;
       target := target l; invoked := invoked l |}.

Fixpoint advance (fuel : nat) (t : Z) (l : Loop) : Loop :=
  match fuel with
  | O => l
  | S fuel =>
      match nextDue t l with
      | None => l
      | Some tm => advance fuel t (fire tm l)
      end
  end.

(** Let time pass until [t]: every timer due by then fires, in order.
    A callback sets no timer, so one round per pending timer is enough. *)
Definition runUntil (t : Z) (l : Loop) : Loop :=
  let l := advance (length (pending l)) t l in
  {| now := Z.max (now l) t; pending := pending l; nextTimer := nextTimer l;
     timeout := timeout l; target := target l; invoked := invoked l |}.

(** A session in which the loop takes a turn right before every call:
    the debounced function is called with the given arguments at the
    given times, in order, and the timers due by the time of a call have
    fired when it is made. *)
Definition play (calls : list (Z * Args)) (l : Loop) : Loop :=
  foldl (λ l call, executedFunction (snd call) (runUntil (fst call) l)) l calls.







End debounce.
End Debounce.

(** ** Vocabulary of the properties *)

(** The closed mobile navigation: the flag is off and the toggle control
    and the menu panel, where the page has them, mirror it. *)
Definition closedNav (w : World) : Prop :=
  navigationActive (AppState w) = false ∧
  (∀ e, navToggle (DOM w) = Some e →
        ("active" ∉ classList e) ∧ getAttribute "aria-expanded" e = Some "false") ∧
  (∀ e, navMenu (DOM w) = Some e →
        ("active" ∉ classList e) ∧ getAttribute "aria-hidden" e = Some "true").

(** What one call does to the toggle control and to the menu panel. *)
Definition toggledControl (attr : string) (value : bool) (e : Element) : Element :=
  setAttribute attr (toString value) (withClassList (ClassList.toggle "active") e).

(** The sample page with its menu opened on a wide viewport. *)
Definition openWidePage : World := toggleMobileNav samplePage.

(** The sample page with a toggle and a menu that carry no ARIA attribute
    in the markup. *)
Definition bareClosedPage : World :=
  withDOM (λ d, {| navToggle := Some (mkElement "BUTTON" ["nav-toggle"] ∅);
                   navMenu := Some (mkElement "UL" ["nav-menu"] ∅);
                   navLinks := navLinks d |}) samplePage.

(** [after] is [before] with the class [active] on exactly the links whose
    [href] is the string [target], and every link otherwise as it was. *)
Definition marksExactly (target : string) (before after : list Element) : Prop :=
  Forall2 (λ old new,
    tagName new = tagName old ∧ attributes new = attributes old ∧
    ("active" ∈ classList new ↔ getAttribute "href" old = Some target) ∧
    (∀ t, t ≠ "active" → t ∈ classList new ↔ t ∈ classList old)) before after.

(** The fragment [updateActiveNavigation] works with. *)
Definition currentHash (w : World) : string :=
  let h := substring1 (locationHash (window w)) in
  if bool_decide (h = "") then "home" else h.

(** The sample page at the URL fragment [features]. *)
Definition featuresPage : World := withWindow (setLocationHash "#features") samplePage.

(** The links of a subtree, in document order. *)
Definition anchors (n : Node) : list Element :=
  List.filter (typeSelector "A") (map snd (descendants n)).

(** What an action reference asks the device to do: a [tel:] URI dials a
    number, an [sms:] URI opens a message to a number, with the text given
    by a [body] field after [?] when there is one. *)
Inductive ActionRef :=
| Dial (number : string)
| Sms (number : string) (body : option string)
| OtherRef (href : option string).

(** [s] without its prefix [p], when it has it. *)
Fixpoint stripPrefix (p s : string) : option string :=
  match p, s with
  | EmptyString, _ => Some s
  | String a p', String b s' => if bool_decide (a = b) then stripPrefix p' s' else None
  | String _ _, EmptyString => None
  end.

(** [s] cut at its first [?]. *)
Fixpoint splitQuery (s : string) : string * option string :=
  match s with
  | EmptyString => (EmptyString, None)
  | String c rest =>
      if bool_decide (c = "?"%char) then (EmptyString, Some rest)
      else let '(before, query) := splitQuery rest in (String c before, query)
  end.

(** The action reference of a link, read from its [href]. *)
Definition actionOf (e : Element) : ActionRef :=
  match getAttribute "href" e with
  | None => OtherRef None
  | Some href =>
      match stripPrefix "tel:" href with
      | Some number => Dial number
      | None =>
          match stripPrefix "sms:" href with
          | Some rest =>
              let '(number, query) := splitQuery rest in
              Sms number (query ≫= stripPrefix "body=")
          | None => OtherRef (Some href)
          end
      end
  end.

(** The click targets inside the content region of the modal: the paths
    that reach an element at or below the element matching
    [.emergency-modal-content]. *)
Definition inContentRegion (path : list nat) : Prop :=
  ∃ content,
    querySelector (classSelector "emergency-modal-content") emergencyModalTree = Some content ∧
    content `prefix_of` path ∧
    is_Some (nodeAt path emergencyModalTree ≫= elementOf).

(** A listener body that removes the modal for this event. *)
Definition removes (target : NodeRef) (modal : nat) (h : Handler) : Prop :=
  h = closeModalClick modal ∨ (h = backdropClick modal ∧ target = (modal, [])).

(** ** Further handlers *)

(** [function initializeNavigation()] *)
Definition initializeNavigation (w : World) : World :=
  updateMobileNavigation (updateActiveNavigation w).

(** The [mousedown] listener installed by [setupFocusManagement]. *)
Definition handleMouseDown (w : World) : World :=
  withDocument (withBodyClassList (ClassList.remove "keyboard-nav")) w.

(** [function trackEmergencyInteraction()] and
    [function handleEmergencyClick(event)] *)
Definition trackEmergencyInteraction (w : World) : World :=
  track "Emergency interaction tracked" w.

Definition handleEmergencyClick (w : World) : World :=
  trackEmergencyInteraction (showEmergencyResources w).

(** The link built by [addSkipLinks]. *)
Definition skipLinkTree : Node :=
  elem "A" ["skip-link"] [("href", "#main")] [Text "Skip to main content"].

(** [function addSkipLinks()]: [insertBefore(skipLink, body.firstChild)]
    puts the new link in front of the children of the body. *)
Definition addSkipLinks (w : World) : World :=
  let skipLink := nextNode (document w) in
  let w := withDocument (setNextNode (S skipLink)) w in
  withDocument (withBodyChildren (λ cs, (skipLink, skipLinkTree) :: cs)) w.

(** [function handleNavigation(event)] for a click that lands on an
    element inside a navigation link: the listener of the link runs with
    that element as [event.target].  The cache does not hold the element,
    so it is passed in and returned as the handler leaves it.  Its own
    [href] is the one read, not the link's. *)
Definition handleNavigationInside (child : Element) (w : World) : Completion * Element :=
  let href := getAttribute "href" child in
  let w := withDOM (withNavLinks (fmap (withClassList (ClassList.remove "active")))) w in
  let child := withClassList (ClassList.add "active") child in
  let w := if navigationActive (AppState w) then toggleMobileNav w else w in
  (match href with
   | None => Throw TypeError w
   | Some href =>
       let w :=
         if startsWithHash href then
           let targetId := substring1 href in
           let w := scrollToSection targetId w in
           withAppState (setCurrentPage targetId) w
         else w in
       Normal (trackNavigation href w)
   end, child).

(** *** Hero buttons and the placeholder dialogs *)

(** The page together with the messages shown by [alert], oldest first. *)
Record Session := mkSession {
  page : World;
  alerts : list string
}.

Definition onPage (f : World → World) (s : Session) : Session :=
  {| page := f (page s); alerts := alerts s |}.

Definition alert (message : string) (s : Session) : Session :=
  {| page := page s; alerts := alerts s ++ [message] |}.

(** White space as [String.prototype.trim] sees it, on the UTF-8 bytes of
    the text: TAB, LF, VT, FF, CR and SPACE; U+00A0; U+1680, U+2000 to
    U+200A, U+2028, U+2029, U+202F, U+205F, U+3000 and U+FEFF. *)
Definition whiteSpace1 (a : ascii) : bool :=
  let a := nat_of_ascii a in
  bool_decide (a ∈ [9; 10; 11; 12; 13; 32]).

Definition whiteSpace2 (a b : ascii) : bool :=
  bool_decide (nat_of_ascii a = 194 ∧ nat_of_ascii b = 160).

Definition whiteSpace3 (a b c : ascii) : bool :=
  let '(a, b, c) := (nat_of_ascii a, nat_of_ascii b, nat_of_ascii c) in
  bool_decide (a = 225 ∧ b = 154 ∧ c = 128)
  || bool_decide (a = 226 ∧ b = 128 ∧ ((128 ≤ c ≤ 138)%nat ∨ c ∈ [168; 169; 175]))
  || bool_decide (a = 226 ∧ b = 129 ∧ c = 159)
  || bool_decide (a = 227 ∧ b = 128 ∧ c = 128)
  || bool_decide (a = 239 ∧ b = 187 ∧ c = 191).

(** [s.trimStart()] *)
Fixpoint trimStart (s : string) : string :=
  match s with
  | EmptyString => EmptyString
  | String a r1 =>
      if whiteSpace1 a then trimStart r1 else
      match r1 with
      | EmptyString => s
      | String b r2 =>
          if whiteSpace2 a b then trimStart r2 else
          match r2 with
          | EmptyString => s
          | String c r3 => if whiteSpace3 a b c then trimStart r3 else s
          end
      end
  end.

(** [trimStart] on the reversed text, where the bytes of a character come
    last byte first. *)
Fixpoint trimStartReversed (s : string) : string :=
  match s with
  | EmptyString => EmptyString
  | String a r1 =>
      if whiteSpace1 a then trimStartReversed r1 else
      match r1 with
      | EmptyString => s
      | String b r2 =>
          if whiteSpace2 b a then trimStartReversed r2 else
          match r2 with
          | EmptyString => s
          | String c r3 => if whiteSpace3 c b a then trimStartReversed r3 else s
          end
      end
  end.

(** [s.trim()] *)
Definition trim (s : string) : string :=
  String.rev (trimStartReversed (String.rev (trimStart s))).

(** [function handleGetStarted()] *)
Definition handleGetStarted (s : Session) : Session :=
  alert "Welcome! User dashboard and onboarding coming soon." s.

(** [function trackButtonClick(section, buttonText)] *)
Definition trackButtonClick (section buttonText : string) (w : World) : World :=
  track ("Button click tracked: " +:+ section +:+ " " +:+ buttonText) w.

(** [function handleHeroButtonClick(event)], with [textContent] the value
    of [event.target.textContent]. *)
Definition handleHeroButtonClick (textContent : string) (s : Session) : Session :=
  let buttonText := trim textContent in
  let s :=
    if bool_decide (buttonText = "Get Started") then handleGetStarted s
    else if bool_decide (buttonText = "Learn More")
         then onPage (scrollToSection "features") s
         else s in
  onPage (trackButtonClick "hero" buttonText) s.

(** *** Feature cards *)

(** The two properties of [card.style] the handlers write; the empty
    string is a property that is not set. *)
Record CardStyle := mkCardStyle {
  opacity : string;
  transform : string
}.

Definition setTransform (value : string) (c : CardStyle) : CardStyle :=
  {| opacity := opacity c; transform := value |}.

Definition setOpacity (value : string) (c : CardStyle) : CardStyle :=
  {| opacity := value; transform := transform c |}.

(** [function handleCardHover(event)] and [function handleCardLeave(event)],
    for the [i]-th feature card. *)
Definition handleCardHover (i : nat) (cards : list CardStyle) : list CardStyle :=
  alter (setTransform "translateY(-8px)") i cards.

Definition handleCardLeave (i : nat) (cards : list CardStyle) : list CardStyle :=
  alter (setTransform "translateY(0)") i cards.

(** An IntersectionObserverEntry: the observed card and [isIntersecting]. *)
Record Entry := mkEntry {
  entryTarget : nat;
  isIntersecting : bool
}.

(** [function handleCardIntersection(entries)] *)
Definition handleCardIntersection (entries : list Entry) (cards : list CardStyle)
    : list CardStyle :=
  foldl (λ cards entry,
           if isIntersecting entry
           then alter (λ c, setTransform "translateY(0)" (setOpacity "1" c))
                      (entryTarget entry) cards
           else cards)
        cards entries.

(** ** Vocabulary of the further properties *)

(** The controls mirror the flag: each one that is on the page carries the
    class [active] exactly when the menu is open, and its ARIA attribute
    says so. *)
Definition navSynced (w : World) : Prop :=
  (∀ e, navToggle (DOM w) = Some e →
        ("active" ∈ classList e ↔ navigationActive (AppState w) = true) ∧
        getAttribute "aria-expanded" e = Some (toString (navigationActive (AppState w)))) ∧
  (∀ e, navMenu (DOM w) = Some e →
        ("active" ∈ classList e ↔ navigationActive (AppState w) = true) ∧
        getAttribute "aria-hidden" e = Some (toString (negb (navigationActive (AppState w))))).

(** The state a completion ends in. *)
Definition finalState (c : Completion) : World :=
  match c with
  | Normal w => w
  | Throw _ w => w
  end.

(** Every click listener sits on the modal its body removes, as the
    listeners of [createEmergencyModal] do. *)
Definition ownListeners (w : World) : Prop :=
  ∀ l, l ∈ clickListeners (document w) →
       snd l = closeModalClick (fst (fst l)) ∨ snd l = backdropClick (fst (fst l)).

(** At most the timer of the latest call is pending. *)
Definition oneTimer {Args Target : Type} (l : @Debounce.Loop Args Target) : Prop :=
  Debounce.pending l = [] ∨
  ∃ tm, Debounce.pending l = [tm] ∧ Debounce.timeout l = Some (Debounce.timerId tm).

(** Whether some entry of the batch reports the [i]-th card as
    intersecting. *)
Definition intersects (entries : list Entry) (i : nat) : bool :=
  existsb (λ entry, isIntersecting entry && bool_decide (entryTarget entry = i)) entries.

(** The style of a card once it was revealed. *)
Definition revealedStyle : CardStyle :=
  {| opacity := "1"; transform := "translateY(0)" |}.

(** What has run and what is waiting comes, in order, from the calls made
    so far. *)
Definition fromCalls {Args Target : Type} (done : list Args)
    (l : @Debounce.Loop Args Target) : Prop :=
  (Debounce.pending l = [] ∧ Debounce.invoked l `sublist_of` done) ∨
  (∃ tm, Debounce.pending l = [tm] ∧ Debounce.timeout l = Some (Debounce.timerId tm) ∧
         Debounce.invoked l ++ [Debounce.args tm] `sublist_of` done).

(** * Properties *)

(** ** Class lists *)

Section class_list.
Implicit Types (tok t : string) (l : list string).

Lemma contains_true tok l : ClassList.contains tok l = true ↔ tok ∈ l.
Proof. unfold ClassList.contains. apply bool_decide_eq_true. Qed.

Lemma contains_false tok l : ClassList.contains tok l = false ↔ tok ∉ l.
Proof. unfold ClassList.contains. apply bool_decide_eq_false. Qed.

Lemma elem_of_add tok t l : t ∈ ClassList.add tok l ↔ t = tok ∨ t ∈ l.
Proof.
  unfold ClassList.add. destruct (ClassList.contains tok l) eqn:E.
  - apply contains_true in E. set_solver.
  - apply contains_false in E. set_solver.
Qed.

Lemma elem_of_remove tok t l : t ∈ ClassList.remove tok l ↔ t ≠ tok ∧ t ∈ l.
Proof. unfold ClassList.remove. by rewrite list_elem_of_filter. Qed.

Lemma remove_absent tok l : tok ∉ l → ClassList.remove tok l = l.
Proof.
  unfold ClassList.remove. induction l as [|t l IH]; intros Hn; [done|].
  apply not_elem_of_cons in Hn as [Hne Hn].
  rewrite filter_cons_True by done. by rewrite IH.
Qed.

Lemma remove_app_singleton tok l :
  ClassList.remove tok (l ++ [tok]) = ClassList.remove tok l.
Proof.
  unfold ClassList.remove. rewrite filter_app, filter_cons_False by naive_solver.
  by rewrite filter_nil, app_nil_r.
Qed.

(** Toggling a token twice gives the list back when the token was
    absent.  (When it was present it moves to the end.) *)
Lemma toggle_toggle_absent tok l :
  tok ∉ l → ClassList.toggle tok (ClassList.toggle tok l) = l.
Proof.
  intros Hn. unfold ClassList.toggle at 2.
  rewrite (proj2 (contains_false tok l)) by done.
  unfold ClassList.toggle.
  rewrite (proj2 (contains_true tok (l ++ [tok]))) by set_solver.
  rewrite remove_app_singleton. by apply remove_absent.
Qed.

Lemma elem_of_toggle tok l :
  tok ∈ ClassList.toggle tok l ↔ tok ∉ l.
Proof.
  unfold ClassList.toggle. destruct (ClassList.contains tok l) eqn:E.
  - apply contains_true in E. rewrite elem_of_remove. naive_solver.
  - apply contains_false in E. set_solver.
Qed.
End class_list.

(** ** Mobile navigation *)

Lemma toggleMobileNav_flag w :
  navigationActive (AppState (toggleMobileNav w)) = negb (navigationActive (AppState w)).
Proof. reflexivity. Qed.

Lemma toggleMobileNav_document w : document (toggleMobileNav w) = document w.
Proof. reflexivity. Qed.

Lemma toggleMobileNav_navToggle w :
  navToggle (DOM (toggleMobileNav w)) =
  toggledControl "aria-expanded" (negb (navigationActive (AppState w))) <$> navToggle (DOM w).
Proof. cbn. by destruct (navToggle (DOM w)). Qed.

Lemma toggleMobileNav_navMenu w :
  navMenu (DOM (toggleMobileNav w)) =
  toggledControl "aria-hidden" (navigationActive (AppState w)) <$> navMenu (DOM w).
Proof.
  cbn. destruct (navMenu (DOM w)); [|done]. cbn. by rewrite negb_involutive.
Qed.

Lemma toggledControl_twice attr e :
  "active" ∉ classList e → getAttribute attr e = Some "false" →
  toggledControl attr false (toggledControl attr true e) = e.
Proof.
  destruct e as [tag cl attrs]. unfold getAttribute. cbn. intros Hcl Hattr.
  unfold toggledControl, setAttribute, withClassList. cbn. f_equal.
  - by apply toggle_toggle_absent.
  - rewrite insert_insert_eq. by apply insert_id.
Qed.

Lemma toggledControl_twice' attr e :
  "active" ∉ classList e → getAttribute attr e = Some "true" →
  toggledControl attr true (toggledControl attr false e) = e.
Proof.
  destruct e as [tag cl attrs]. unfold getAttribute. cbn. intros Hcl Hattr.
  unfold toggledControl, setAttribute, withClassList. cbn. f_equal.
  - by apply toggle_toggle_absent.
  - rewrite insert_insert_eq. by apply insert_id.
Qed.

(** Two calls from any state with the flag off: the flag is off again,
    both controls carry the class [active] exactly when they did before,
    and the ARIA attributes say closed, whatever they said before. *)
Lemma toggleMobileNav_twice_any w :
  navigationActive (AppState w) = false →
  let w' := toggleMobileNav (toggleMobileNav w) in
  navigationActive (AppState w') = false ∧
  (∀ e, navToggle (DOM w) = Some e →
     ∃ e', navToggle (DOM w') = Some e' ∧
           ("active" ∈ classList e' ↔ "active" ∈ classList e) ∧
           getAttribute "aria-expanded" e' = Some "false") ∧
  (∀ e, navMenu (DOM w) = Some e →
     ∃ e', navMenu (DOM w') = Some e' ∧
           ("active" ∈ classList e' ↔ "active" ∈ classList e) ∧
           getAttribute "aria-hidden" e' = Some "true").
Proof.
  intros Hoff w'. subst w'. split; [|split].
  - by rewrite !toggleMobileNav_flag, Hoff.
  - intros e He. rewrite !toggleMobileNav_navToggle, toggleMobileNav_flag, He, Hoff.
    eexists; split; [reflexivity|]. cbn. split.
    + rewrite !elem_of_toggle. destruct (decide ("active" ∈ classList e)); tauto.
    + unfold getAttribute. cbn. apply lookup_insert_eq.
  - intros e He. rewrite !toggleMobileNav_navMenu, toggleMobileNav_flag, He, Hoff.
    eexists; split; [reflexivity|]. cbn. split.
    + rewrite !elem_of_toggle. destruct (decide ("active" ∈ classList e)); tauto.
    + unfold getAttribute. cbn. apply lookup_insert_eq.
Qed.

Lemma world_eq w1 w2 :
  AppState w1 = AppState w2 → DOM w1 = DOM w2 → window w1 = window w2 →
  document w1 = document w2 → tracked w1 = tracked w2 → w1 = w2.
Proof. destruct w1, w2. cbn. by intros -> -> -> -> ->. Qed.

Lemma DOM_eq d1 d2 :
  navToggle d1 = navToggle d2 → navMenu d1 = navMenu d2 →
  navLinks d1 = navLinks d2 → d1 = d2.
Proof. destruct d1, d2. cbn. by intros -> -> ->. Qed.

(** From a closed mobile navigation whose controls already mirror the
    flag, calling [toggleMobileNav] twice gives back the state it started
    from: the open-state flag, [aria-expanded] on the toggle, [aria-hidden]
    on the menu and the class lists of both are what they were, and
    nothing else has changed. *)
Lemma toggleMobileNav_twice_mirrored (w : World) :
  closedNav w → toggleMobileNav (toggleMobileNav w) = w.
Proof.
  intros (Hoff & Htoggle & Hmenu). apply world_eq; try reflexivity.
  - destruct w as [[u p m a] d v doc tr]. cbn in *. subst a. reflexivity.
  - apply DOM_eq; [| |reflexivity].
    + rewrite !toggleMobileNav_navToggle, toggleMobileNav_flag, Hoff. cbn.
      destruct (navToggle (DOM w)) as [e|] eqn:He; [|done]. cbn. f_equal.
      destruct (Htoggle e eq_refl). by apply toggledControl_twice.
    + rewrite !toggleMobileNav_navMenu, toggleMobileNav_flag, Hoff. cbn.
      destruct (navMenu (DOM w)) as [e|] eqn:He; [|done]. cbn. f_equal.
      destruct (Hmenu e eq_refl). by apply toggledControl_twice'.
Qed.

Lemma samplePage_closedNav : closedNav samplePage.
Proof.
  split; [reflexivity|]. split; intros e [= <-]; (split; [|reflexivity]);
    cbn; set_solver.
Qed.

(** C6, as amended. Starting from a closed mobile navigation, calling
    [toggleMobileNav] twice returns the open-state flag to false and
    leaves each control with the class [active] exactly if it had it
    before; [aria-expanded] on the toggle ends at ["false"] and
    [aria-hidden] on the menu at ["true"], which are their original
    values only where the controls carried them already.  Where they did,
    and neither control had the class [active], the two calls are the
    identity on the state. *)
Theorem toggleMobileNav_twice_closed (w : World) :
  navigationActive (AppState w) = false →
  navigationActive (AppState (toggleMobileNav (toggleMobileNav w))) = false ∧
  (∀ e, navToggle (DOM w) = Some e →
     ∃ e', navToggle (DOM (toggleMobileNav (toggleMobileNav w))) = Some e' ∧
           ("active" ∈ classList e' ↔ "active" ∈ classList e) ∧
           getAttribute "aria-expanded" e' = Some "false") ∧
  (∀ e, navMenu (DOM w) = Some e →
     ∃ e', navMenu (DOM (toggleMobileNav (toggleMobileNav w))) = Some e' ∧
           ("active" ∈ classList e' ↔ "active" ∈ classList e) ∧
           getAttribute "aria-hidden" e' = Some "true") ∧
  (closedNav w → toggleMobileNav (toggleMobileNav w) = w).
Proof.
  intros Hoff. destruct (toggleMobileNav_twice_any w Hoff) as (Hflag & Htoggle & Hmenu).
  split; [exact Hflag|]. split; [exact Htoggle|]. split; [exact Hmenu|].
  apply toggleMobileNav_twice_mirrored.
Qed.

Lemma toggleMobileNav_twice_closed_witness :
  navigationActive (AppState bareClosedPage) = false ∧
  navigationActive (AppState (toggleMobileNav (toggleMobileNav bareClosedPage))) = false.
Proof.
  split; [reflexivity|].
  apply (toggleMobileNav_twice_closed bareClosedPage). reflexivity.
Defined.

(** C6, as stated, fails: on a closed page whose toggle and menu carry
    neither the class [active] nor an ARIA attribute, two calls of
    [toggleMobileNav] do not give the state back: [aria-expanded] and
    [aria-hidden], absent before, are ["false"] and ["true"] after. *)
Lemma toggleMobileNav_twice_adds_aria :
  navigationActive (AppState bareClosedPage) = false ∧
  navToggle (DOM bareClosedPage) ≫= getAttribute "aria-expanded" = None ∧
  navMenu (DOM bareClosedPage) ≫= getAttribute "aria-hidden" = None ∧
  navToggle (DOM (toggleMobileNav (toggleMobileNav bareClosedPage)))
    ≫= getAttribute "aria-expanded" = Some "false" ∧
  navMenu (DOM (toggleMobileNav (toggleMobileNav bareClosedPage)))
    ≫= getAttribute "aria-hidden" = Some "true" ∧
  toggleMobileNav (toggleMobileNav bareClosedPage) ≠ bareClosedPage.
Proof.
  do 5 (split; [vm_compute; reflexivity|]).
  intros Heq.
  assert (navToggle (DOM (toggleMobileNav (toggleMobileNav bareClosedPage)))
            ≫= getAttribute "aria-expanded" =
          navToggle (DOM bareClosedPage) ≫= getAttribute "aria-expanded") as Hattr
    by by rewrite Heq.
  vm_compute in Hattr. discriminate Hattr.
Qed.




(** C5. After a resize event that leaves the viewport wider than 768
    pixels, whatever the state before, the open-state flag is off. *)
Theorem resize_wide_closes (w : World) (px : Z) :
  (768 < px)%Z → navigationActive (AppState (resize px w)) = false.
Proof.
  intros Hwide. unfold resize, handleWindowResize. cbn.
  rewrite (proj2 (Z.ltb_lt _ _)) by lia. cbn.
  destruct (navigationActive (AppState w)) eqn:Hopen.
  - unfold updateMobileNavigation. cbn. rewrite Hopen, andb_false_r.
    by rewrite toggleMobileNav_flag; cbn; rewrite Hopen.
  - unfold updateMobileNavigation. cbn. by rewrite Hopen, andb_false_r.
Qed.

Lemma resize_wide_closes_witness :
  (768 < 1200)%Z ∧ navigationActive (AppState (resize 1200 openWidePage)) = false.
Proof. split; [lia|]. apply (resize_wide_closes openWidePage 1200). lia. Defined.

(** ** Active navigation link *)

Lemma updateActiveNavigation_marks w :
  marksExactly ("#" +:+ currentHash w) (navLinks (DOM w))
               (navLinks (DOM (updateActiveNavigation w))).
Proof.
  unfold marksExactly, updateActiveNavigation. cbn. fold (currentHash w).
  generalize (currentHash w) as hash. intros hash.
  induction (navLinks (DOM w)) as [|link links IH]; [constructor|].
  rewrite fmap_cons. constructor; [|exact IH].
  case_bool_decide as Hhref; cbn; (split; [done|]); (split; [done|]); split.
  - rewrite elem_of_add. naive_solver.
  - intros t Ht. rewrite elem_of_add. naive_solver.
  - rewrite elem_of_remove. naive_solver.
  - intros t Ht. rewrite elem_of_remove. naive_solver.
Qed.

(** C8. With the URL fragment [features], [updateActiveNavigation] leaves
    the class [active] on exactly the links whose [href] is the string
    [#features], compared as a whole string, and on no other link; with an
    empty fragment it does what it does for the fragment [home]. *)
Theorem updateActiveNavigation_features (w : World) :
  locationHash (window w) = "#features" →
  marksExactly "#features" (navLinks (DOM w))
               (navLinks (DOM (updateActiveNavigation w))) ∧
  updateActiveNavigation (withWindow (setLocationHash "") w) =
  withWindow (setLocationHash "")
    (updateActiveNavigation (withWindow (setLocationHash "#home") w)).
Proof.
  intros Hhash. split.
  - pose proof (updateActiveNavigation_marks w) as H.
    unfold currentHash in H. by rewrite Hhash in H.
  - apply world_eq; try reflexivity.
Qed.

Lemma updateActiveNavigation_features_witness :
  locationHash (window featuresPage) = "#features" ∧
  marksExactly "#features" (navLinks (DOM featuresPage))
               (navLinks (DOM (updateActiveNavigation featuresPage))).
Proof.
  split; [reflexivity|].
  apply (updateActiveNavigation_features featuresPage). reflexivity.
Defined.

(** On the sample page the link to [#features-more] and the link without
    [href] stay unmarked, and the mark moves from [#home] to [#features]. *)
Example updateActiveNavigation_features_sample :
  map classList (navLinks (DOM (updateActiveNavigation featuresPage))) =
  [["nav-link"]; ["nav-link"; "active"]; ["nav-link"]; ["nav-link"]].
Proof. vm_compute. reflexivity. Qed.

(** ** Missing elements *)

(** With neither control on the page, [toggleMobileNav] only flips the
    flag. *)
Lemma toggleMobileNav_no_controls w :
  navToggle (DOM w) = None → navMenu (DOM w) = None →
  toggleMobileNav w =
  withAppState (λ a, setNavigationActive (negb (navigationActive a)) a) w.
Proof.
  intros Ht Hm. apply world_eq; try reflexivity.
  apply DOM_eq; cbn; by rewrite ?Ht, ?Hm.
Qed.

(** [handleSmoothScroll] reads [href] through [?.]: a target without the
    attribute is left alone. *)
Lemma handleSmoothScroll_no_href e w :
  getAttribute "href" e = None → handleSmoothScroll e w = w.
Proof.
  intros He. unfold handleSmoothScroll. rewrite He. cbn. by rewrite andb_false_r.
Qed.

(** [handleNavigation] reads it without: activating any link that has no
    [href] ends in a TypeError, raised after the class lists and the menu
    were updated and before the telemetry call. *)
Lemma handleNavigation_no_href w i link :
  navLinks (DOM w) !! i = Some link → getAttribute "href" link = None →
  ∃ w', handleNavigation i w = Throw TypeError w' ∧ tracked w' = tracked w.
Proof.
  intros Hi Hhref. unfold handleNavigation. rewrite Hi, Hhref.
  eexists; split; [reflexivity|]. cbn.
  by destruct (navigationActive (AppState w)).
Qed.

(** C4. Activating the fourth link of the sample page, which has no
    [href], does not complete normally: [handleNavigation] throws a
    TypeError, having moved the class [active] to that link. *)
Theorem handleNavigation_missing_href_throws :
  (navLinks (DOM samplePage) !! 3) ≫= getAttribute "href" = None ∧
  ∃ w', handleNavigation 3 samplePage = Throw TypeError w' ∧
        map classList (navLinks (DOM w')) =
          [["nav-link"]; ["nav-link"]; ["nav-link"]; ["nav-link"; "active"]] ∧
        tracked w' = [].
Proof.
  split; [reflexivity|].
  destruct (handleNavigation_no_href samplePage 3 (mkElement "A" ["nav-link"] ∅))
    as (w' & Hw' & Htr); [reflexivity..|].
  exists w'. split; [exact Hw'|]. split; [|exact Htr].
  unfold handleNavigation in Hw'. cbn in Hw'. injection Hw' as <-.
  vm_compute. reflexivity.
Qed.

(** ** Keyboard *)

Lemma handleKeyboardNavigation_bodyChildren key w :
  bodyChildren (document (handleKeyboardNavigation key w)) = bodyChildren (document w).
Proof.
  unfold handleKeyboardNavigation.
  destruct (bool_decide (key = "Tab")), (bool_decide (key = "Escape") && _); reflexivity.
Qed.

(** C10. An Escape keydown removes no emergency modal: a modal in the
    document before it is in the document after it.  The handler toggles
    the mobile navigation when it is open and does nothing else; when it
    is closed the state is unchanged. *)
Theorem escape_keeps_modal (w : World) (c : nat * Node) :
  c ∈ emergencyModals w →
  c ∈ emergencyModals (keydown "Escape" w) ∧
  (navigationActive (AppState w) = false → keydown "Escape" w = w) ∧
  (navigationActive (AppState w) = true → keydown "Escape" w = toggleMobileNav w).
Proof.
  intros Hc. split; [|split].
  - unfold emergencyModals, keydown in *.
    by rewrite handleKeyboardNavigation_bodyChildren.
  - intros Hoff. unfold keydown, handleKeyboardNavigation. by rewrite Hoff.
  - intros Hon. unfold keydown, handleKeyboardNavigation. by rewrite Hon.
Qed.

(** ** Crisis modal: what is built *)

Lemma closeControl_path :
  querySelector (classSelector "close-modal") emergencyModalTree = Some [0; 2].
Proof. vm_compute. reflexivity. Qed.

Lemma firstFocusable_path :
  querySelector (typeSelector "BUTTON") emergencyModalTree = Some [0; 2].
Proof. vm_compute. reflexivity. Qed.

Lemma contentRegion_path :
  querySelector (classSelector "emergency-modal-content") emergencyModalTree = Some [0].
Proof. vm_compute. reflexivity. Qed.

Lemma createEmergencyModal_tree w :
  snd (fst (createEmergencyModal w)) = emergencyModalTree.
Proof. unfold createEmergencyModal. rewrite closeControl_path. reflexivity. Qed.

Lemma showEmergencyResources_document w :
  let modal := nextNode (document w) in
  document (showEmergencyResources w) =
  {| sections := sections (document w);
     headerOffsetHeight := headerOffsetHeight (document w);
     bodyClassList := bodyClassList (document w);
     bodyChildren := bodyChildren (document w) ++ [(modal, emergencyModalTree)];
     clickListeners := clickListeners (document w) ++
                       [((modal, [0; 2]), closeModalClick modal);
                        ((modal, []), backdropClick modal)];
     nextNode := S modal;
     activeElement := Some (modal, [0; 2]) |}.
Proof.
  unfold showEmergencyResources, createEmergencyModal.
  rewrite closeControl_path, firstFocusable_path. cbn.
  unfold setActiveElement, withBodyChildren, addClickListener, setNextNode. cbn.
  by rewrite <- app_assoc.
Qed.

Lemma showEmergencyResources_bodyChildren w :
  bodyChildren (document (showEmergencyResources w)) =
  bodyChildren (document w) ++ [(nextNode (document w), emergencyModalTree)].
Proof. by rewrite showEmergencyResources_document. Qed.

Lemma emergencyModals_show w :
  emergencyModals (showEmergencyResources w) =
  emergencyModals w ++ [(nextNode (document w), emergencyModalTree)].
Proof.
  unfold emergencyModals. rewrite showEmergencyResources_bodyChildren.
  by rewrite List.filter_app.
Qed.

Example actionOf_with_body :
  actionOf (mkElement "A" [] {["href" := "sms:741741?body=HOME"]}) =
  Sms "741741" (Some "HOME").
Proof. vm_compute. reflexivity. Qed.

Lemma emergencyModal_hrefs :
  map (getAttribute "href") (anchors emergencyModalTree) =
  [Some "tel:988"; Some "tel:911"; Some "sms:741741"].
Proof. vm_compute. reflexivity. Qed.

Lemma emergencyModal_actions :
  map actionOf (anchors emergencyModalTree) =
  [Dial "988"; Dial "911"; Sms "741741" None].
Proof. vm_compute. reflexivity. Qed.

(** C2, as amended. The modal built by [createEmergencyModal] always holds
    exactly three links, in this order: [tel:988], [tel:911] and
    [sms:741741].  The SMS link names the number only and carries no
    message body; the word HOME is in the line of text above that link,
    "Text HOME to 741741". *)
Theorem createEmergencyModal_actions (w : World) :
  let modal := snd (fst (createEmergencyModal w)) in
  map (getAttribute "href") (anchors modal) =
    [Some "tel:988"; Some "tel:911"; Some "sms:741741"] ∧
  map actionOf (anchors modal) = [Dial "988"; Dial "911"; Sms "741741" None] ∧
  (nodeAt [0; 1; 2; 2] modal ≫= elementOf) ≫= getAttribute "href" = Some "sms:741741" ∧
  textContent <$> nodeAt [0; 1; 2; 1] modal = Some "Text HOME to 741741".
Proof.
  cbv zeta. rewrite createEmergencyModal_tree.
  split; [exact emergencyModal_hrefs|]. split; [exact emergencyModal_actions|].
  split; vm_compute; reflexivity.
Qed.

(** C2, as stated, fails: no link of the modal built on the sample page is
    an SMS reference to 741741 with the message body HOME. *)
Lemma createEmergencyModal_no_sms_body :
  ¬ ∃ a, a ∈ anchors (snd (fst (createEmergencyModal samplePage))) ∧
         actionOf a = Sms "741741" (Some "HOME").
Proof.
  intros (a & Ha & Hact). rewrite createEmergencyModal_tree in Ha.
  assert (actionOf a ∈ map actionOf (anchors emergencyModalTree)) as Hin.
  { apply list_elem_of_In, in_map, list_elem_of_In, Ha. }
  rewrite emergencyModal_actions, Hact in Hin.
  set_unfold in Hin. naive_solver.
Qed.

(** ** Crisis modal: how many *)

Lemma emergencyModals_iter n w :
  ∃ added, emergencyModals (Nat.iter n showEmergencyResources w) =
           emergencyModals w ++ added ∧ length added = n.
Proof.
  induction n as [|n (added & Heq & Hlen)].
  - exists []. by rewrite app_nil_r.
  - rewrite Nat.iter_succ, emergencyModals_show, Heq. eexists. rewrite <- app_assoc.
    split; [reflexivity|]. rewrite length_app. cbn. lia.
Qed.

(** C1, as amended. Each activation of the emergency control appends one
    new emergency modal to the document and removes none: after [n]
    activations the modals that were there are still there, followed by
    [n] new ones.  One activation adds one, so on a page without a modal
    it leaves exactly one. *)
Theorem showEmergencyResources_count (w : World) (n : nat) :
  emergencyModals w `prefix_of` emergencyModals (Nat.iter n showEmergencyResources w) ∧
  length (emergencyModals (Nat.iter n showEmergencyResources w)) =
    length (emergencyModals w) + n ∧
  length (emergencyModals (showEmergencyResources w)) = S (length (emergencyModals w)).
Proof.
  destruct (emergencyModals_iter n w) as (added & Heq & Hlen).
  rewrite Heq. split; [by exists added|]. split.
  - rewrite length_app. lia.
  - rewrite emergencyModals_show, length_app. cbn. lia.
Qed.

(** C1, as stated, fails: a second activation on the sample page while the
    first modal is still in the document leaves two modals, not one. *)
Lemma showEmergencyResources_stacks :
  let w := showEmergencyResources (showEmergencyResources samplePage) in
  length (emergencyModals w) = 2 ∧ length (emergencyModals w) ≠ 1.
Proof. cbv zeta. split; vm_compute; [reflexivity | discriminate]. Qed.

(** ** Crisis modal: dismissal *)

Lemma scrollToSection_document id w : document (scrollToSection id w) = document w.
Proof. unfold scrollToSection. by destruct (getElementById _ _). Qed.

Lemma handleSmoothScroll_document e w : document (handleSmoothScroll e w) = document w.
Proof.
  unfold handleSmoothScroll. destruct (_ && _); [|done]. apply scrollToSection_document.
Qed.

Lemma removeNode_absent modal w : ¬ modalPresent modal (removeNode modal w).
Proof.
  unfold modalPresent, removeNode. cbn. rewrite list_elem_of_fmap.
  intros (c & -> & Hc). apply list_elem_of_filter in Hc. naive_solver.
Qed.

Lemma removeNode_keeps_absent modal other w :
  ¬ modalPresent modal w → ¬ modalPresent modal (removeNode other w).
Proof.
  unfold modalPresent, removeNode. cbn. rewrite !list_elem_of_fmap.
  intros Hn (c & -> & Hc). apply list_elem_of_filter in Hc. naive_solver.
Qed.

Lemma runHandler_keeps_absent modal target h w :
  ¬ modalPresent modal w → ¬ modalPresent modal (runHandler target h w).
Proof.
  intros Hn. destruct h; cbn; [|case_bool_decide];
    auto using removeNode_keeps_absent.
Qed.

Lemma runListeners_app target node ls1 ls2 w :
  runListeners target node (ls1 ++ ls2) w =
  runListeners target node ls2 (runListeners target node ls1 w).
Proof. unfold runListeners. apply foldl_app. Qed.

Lemma runListeners_keeps_absent modal target node ls w :
  ¬ modalPresent modal w → ¬ modalPresent modal (runListeners target node ls w).
Proof.
  revert w. induction ls as [|l ls IH]; intros w Hn; [done|].
  cbn. apply IH. case_bool_decide; auto using runHandler_keeps_absent.
Qed.

Lemma runHandler_removes target modal h w :
  removes target modal h → runHandler target h w = removeNode modal w.
Proof. intros [->|[-> ->]]; cbn; [done|]. by rewrite bool_decide_eq_true_2. Qed.

Lemma runListeners_fires modal target node ls h w :
  ((fst target, node), h) ∈ ls → removes target modal h →
  ¬ modalPresent modal (runListeners target node ls w).
Proof.
  intros Hin Hrem. apply list_elem_of_split in Hin as (ls1 & ls2 & ->).
  rewrite runListeners_app. cbn. rewrite bool_decide_eq_true_2 by done.
  apply runListeners_keeps_absent. rewrite (runHandler_removes _ modal) by done.
  apply removeNode_absent.
Qed.

(** Listeners on other children of the body do not run. *)
Lemma runListeners_elsewhere target node ls w :
  Forall (λ l, fst (fst l) ≠ fst target) ls → runListeners target node ls w = w.
Proof.
  revert w. induction ls as [|l ls IH]; intros w Hls; [done|].
  apply Forall_cons in Hls as [Hl Hls]. cbn.
  rewrite bool_decide_eq_false_2; [by apply IH|].
  intros Heq. apply Hl. by rewrite Heq.
Qed.

Lemma find_fresh (modal : nat) (tree : Node) (cs : list (nat * Node)) :
  Forall (λ c, fst c ≠ modal) cs →
  List.find (λ c, bool_decide (fst c = modal)) (cs ++ [(modal, tree)]) =
  Some (modal, tree).
Proof.
  induction cs as [|c cs IH]; intros Hcs; cbn.
  - by rewrite bool_decide_eq_true_2.
  - apply Forall_cons in Hcs as [Hc Hcs].
    rewrite bool_decide_eq_false_2 by done. by apply IH.
Qed.

Lemma wellFormed_fresh_children w :
  wellFormed w → Forall (λ c, fst c ≠ nextNode (document w)) (bodyChildren (document w)).
Proof. intros [Hc _]. apply Forall_forall. intros c Hin%Hc. lia. Qed.

Lemma wellFormed_fresh_listeners w :
  wellFormed w →
  Forall (λ l, fst (fst l) ≠ nextNode (document w)) (clickListeners (document w)).
Proof. intros [_ Hl]. apply Forall_forall. intros l Hin%Hl. lia. Qed.

Lemma elementAt_shown w path :
  wellFormed w →
  elementAt (nextNode (document w), path) (showEmergencyResources w) =
  nodeAt path emergencyModalTree ≫= elementOf.
Proof.
  intros Hwf. unfold elementAt. rewrite showEmergencyResources_bodyChildren. cbn.
  by rewrite find_fresh by by apply wellFormed_fresh_children.
Qed.

Lemma modalPresent_shown w :
  modalPresent (nextNode (document w)) (showEmergencyResources w).
Proof.
  unfold modalPresent. rewrite showEmergencyResources_bodyChildren.
  rewrite fmap_app. set_solver.
Qed.

(** A path below the close control that reaches an element is the close
    control itself: it has no element children. *)
Lemma closeControl_leaf path :
  [0; 2] `prefix_of` path → is_Some (nodeAt path emergencyModalTree ≫= elementOf) →
  path = [0; 2].
Proof.
  intros [rest ->] [e He]. destruct rest as [|i rest]; [done|].
  exfalso. cbn in He. destruct i as [|i]; cbn in He; [|done].
  by destruct rest.
Qed.

Lemma propagationPath_prefix node path :
  node ∈ propagationPath path → node `prefix_of` path.
Proof.
  unfold propagationPath. intros (k & -> & _)%list_elem_of_fmap.
  exists (drop k path). by rewrite take_drop.
Qed.

(** A click at an element of the content region other than the close
    control runs no listener body that changes the state. *)
Lemma runListeners_content w path node w' :
  wellFormed w → path ≠ [] → node ≠ [0; 2] →
  runListeners (nextNode (document w), path) node
               (clickListeners (document (showEmergencyResources w))) w' = w'.
Proof.
  intros Hwf Hpath Hnode. rewrite showEmergencyResources_document.
  cbn [clickListeners]. rewrite runListeners_app.
  rewrite (runListeners_elsewhere _ _ (clickListeners (document w)))
    by exact (wellFormed_fresh_listeners w Hwf).
  cbn.
  rewrite (bool_decide_eq_false_2 ((_, [0; 2]) = _)) by (intros [= ?]; congruence).
  case_bool_decide as Hroot; [|done].
  case_bool_decide as Htarget; [|done]. by injection Htarget.
Qed.

Lemma modalPresent_document modal w1 w2 :
  document w1 = document w2 → modalPresent modal w1 ↔ modalPresent modal w2.
Proof. unfold modalPresent. by intros ->. Qed.

Lemma click_close_removes w :
  wellFormed w →
  ¬ modalPresent (nextNode (document w))
      (click (nextNode (document w), [0; 2]) (showEmergencyResources w)).
Proof.
  intros Hwf. unfold click. rewrite elementAt_shown by done.
  destruct (nodeAt [0; 2] emergencyModalTree ≫= elementOf) as [e|] eqn:He;
    [clear He | by vm_compute in He].
  rewrite (modalPresent_document _ _ _ (handleSmoothScroll_document _ _)).
  change (propagationPath (snd (nextNode (document w), [0; 2])))
    with [[0; 2]; [0]; []].
  cbn [foldl].
  apply (runListeners_keeps_absent _ _ []), (runListeners_keeps_absent _ _ [0]).
  apply (runListeners_fires _ _ _ _ (closeModalClick (nextNode (document w)))).
  - rewrite showEmergencyResources_document. cbn. set_solver.
  - by left.
Qed.

Lemma click_backdrop_removes w :
  wellFormed w →
  ¬ modalPresent (nextNode (document w))
      (click (nextNode (document w), []) (showEmergencyResources w)).
Proof.
  intros Hwf. unfold click. rewrite elementAt_shown by done.
  destruct (nodeAt [] emergencyModalTree ≫= elementOf) as [e|] eqn:He;
    [clear He | by vm_compute in He].
  rewrite (modalPresent_document _ _ _ (handleSmoothScroll_document _ _)).
  change (propagationPath (snd (nextNode (document w), []))) with [[] : list nat].
  cbn [foldl].
  apply (runListeners_fires _ _ _ _ (backdropClick (nextNode (document w)))).
  - rewrite showEmergencyResources_document. cbn. set_solver.
  - by right.
Qed.

Lemma inContentRegion_prefix path :
  inContentRegion path ↔
  [0] `prefix_of` path ∧ is_Some (nodeAt path emergencyModalTree ≫= elementOf).
Proof.
  unfold inContentRegion. rewrite contentRegion_path. split.
  - by intros (content & [= <-] & Hprefix & Helem).
  - intros [Hprefix Helem]. by exists [0].
Qed.

Lemma click_content_keeps w path :
  wellFormed w → inContentRegion path → path ≠ [0; 2] →
  bodyChildren (document (click (nextNode (document w), path) (showEmergencyResources w))) =
  bodyChildren (document (showEmergencyResources w)).
Proof.
  intros Hwf [Hcontent Helem]%inContentRegion_prefix Hclose.
  unfold click. rewrite elementAt_shown by done.
  destruct Helem as [e He]. rewrite He, handleSmoothScroll_document. cbn [snd].
  assert (path ≠ []) as Hne by (destruct Hcontent as [? ->]; done).
  assert (∀ nodes w',
    Forall (λ node, node ≠ [0; 2]) nodes →
    foldl (λ w0 node,
             runListeners (nextNode (document w), path) node
               (clickListeners (document (showEmergencyResources w))) w0)
          w' nodes = w') as Hfold.
  { intros nodes. induction nodes as [|node nodes IH]; intros w' Hnodes; [done|].
    apply Forall_cons in Hnodes as [Hnode Hnodes]. cbn.
    rewrite runListeners_content by done. by apply IH. }
  rewrite Hfold; [done|].
  apply Forall_forall. intros node Hin%propagationPath_prefix ->.
  apply Hclose, closeControl_leaf; [done|]. by exists e.
Qed.

(** C7. For the modal put in the document by
    [showEmergencyResources]: a click on its close control removes it; a
    click whose target is the modal element itself removes it; a click
    whose target is in the content region and is not the close control
    leaves it in the document. *)
Theorem modal_dismissal (w : World) :
  wellFormed w →
  modalPresent (nextNode (document w)) (showEmergencyResources w) ∧
  (∀ close, querySelector (classSelector "close-modal") emergencyModalTree = Some close →
            ¬ modalPresent (nextNode (document w))
                (click (nextNode (document w), close) (showEmergencyResources w))) ∧
  ¬ modalPresent (nextNode (document w))
      (click (nextNode (document w), []) (showEmergencyResources w)) ∧
  (∀ path, inContentRegion path →
           querySelector (classSelector "close-modal") emergencyModalTree ≠ Some path →
           modalPresent (nextNode (document w))
             (click (nextNode (document w), path) (showEmergencyResources w))).
Proof.
  intros Hwf. split; [apply modalPresent_shown|]. split; [|split].
  - intros close Hclose. rewrite closeControl_path in Hclose. injection Hclose as <-.
    by apply click_close_removes.
  - by apply click_backdrop_removes.
  - intros path Hcontent Hclose. unfold modalPresent.
    rewrite click_content_keeps; [apply modalPresent_shown|done..|].
    intros ->. by rewrite closeControl_path in Hclose.
Qed.

Lemma samplePage_wellFormed : wellFormed samplePage.
Proof. split; cbn; intros ? Hin; by apply elem_of_nil in Hin. Qed.

Lemma smsLink_inContentRegion : inContentRegion [0; 1; 2; 2].
Proof.
  apply inContentRegion_prefix. split; [by exists [1; 2; 2]|].
  vm_compute. by eexists.
Qed.

Lemma modal_dismissal_witness :
  wellFormed samplePage ∧
  modalPresent 0 (click (0, [0; 1; 2; 2]) (showEmergencyResources samplePage)).
Proof.
  split; [exact samplePage_wellFormed|].
  apply (modal_dismissal samplePage samplePage_wellFormed).
  - exact smsLink_inContentRegion.
  - rewrite closeControl_path. discriminate.
Defined.

Lemma shown_emergencyModal :
  (0, emergencyModalTree) ∈ emergencyModals (showEmergencyResources samplePage).
Proof. rewrite emergencyModals_show. cbn. set_solver. Qed.

Lemma escape_keeps_modal_witness :
  (0, emergencyModalTree) ∈ emergencyModals (showEmergencyResources samplePage) ∧
  (0, emergencyModalTree) ∈
    emergencyModals (keydown "Escape" (showEmergencyResources samplePage)).
Proof.
  split; [exact shown_emergencyModal|].
  apply (escape_keeps_modal (showEmergencyResources samplePage)).
  exact shown_emergencyModal.
Defined.

(** ** Well-formed states are closed under the handlers *)

Lemma wellFormed_document w1 w2 :
  document w1 = document w2 → wellFormed w1 → wellFormed w2.
Proof. unfold wellFormed. by intros ->. Qed.

Lemma showEmergencyResources_wellFormed w :
  wellFormed w → wellFormed (showEmergencyResources w).
Proof.
  intros [Hc Hl]. unfold wellFormed. rewrite showEmergencyResources_document. cbn.
  split.
  - intros c [Hin| ->%list_elem_of_singleton]%elem_of_app; [|cbn; lia].
    apply Hc in Hin. lia.
  - intros l [Hin|Hin]%elem_of_app; [apply Hl in Hin; lia|].
    set_unfold in Hin. destruct Hin as [Heq|[Heq|[]]]; rewrite Heq; cbn; lia.
Qed.

Lemma removeNode_wellFormed modal w : wellFormed w → wellFormed (removeNode modal w).
Proof.
  intros [Hc Hl]. split; [|exact Hl]. cbn.
  intros c Hin%list_elem_of_filter. apply Hc, Hin.
Qed.

Lemma runHandler_wellFormed target h w : wellFormed w → wellFormed (runHandler target h w).
Proof.
  intros Hwf. destruct h; cbn.
  - by apply removeNode_wellFormed.
  - case_bool_decide; [by apply removeNode_wellFormed | done].
Qed.

Lemma runListeners_wellFormed target node ls w :
  wellFormed w → wellFormed (runListeners target node ls w).
Proof.
  revert w. induction ls as [|l ls IH]; intros w Hwf; [done|].
  cbn. apply IH. case_bool_decide; [|done]. by apply runHandler_wellFormed.
Qed.

Lemma click_wellFormed target w : wellFormed w → wellFormed (click target w).
Proof.
  intros Hwf. unfold click. destruct (elementAt target w); [|done].
  apply (wellFormed_document _ _ (eq_sym (handleSmoothScroll_document _ _))).
  generalize (clickListeners (document w)) as ls. intros ls.
  revert w Hwf. induction (propagationPath (snd target)) as [|node nodes IH];
    intros w Hwf; [done|].
  cbn. by apply IH, runListeners_wellFormed.
Qed.

Lemma keydown_wellFormed key w : wellFormed w → wellFormed (keydown key w).
Proof.
  unfold keydown, handleKeyboardNavigation, wellFormed.
  by destruct (bool_decide (key = "Tab")), (bool_decide (key = "Escape") && _).
Qed.

Lemma resize_wellFormed px w : wellFormed w → wellFormed (resize px w).
Proof.
  apply wellFormed_document. unfold resize, handleWindowResize, updateMobileNavigation.
  by repeat (destruct (_ && _); cbn).
Qed.


(** ** Debounce *)

Import Debounce.

Section debounce_facts.
Context {Args Target : Type}.
Variable func : Args → Target → Target.
Variable wait : Z.

Abbreviation Loop := (@Loop Args Target).
Abbreviation Timer := (@Timer Args).

Lemma earliest_In (ts : list Timer) tm : earliest ts = Some tm → In tm ts.
Proof.
  revert tm. induction ts as [|tm0 ts IH]; intros tm; cbn; [done|].
  destruct (earliest ts) as [tm'|].
  - destruct (due tm0 <=? due tm')%Z; intros [= <-]; auto.
  - intros [= <-]. auto.
Qed.

Lemma nextDue_In t (l : Loop) tm : nextDue t l = Some tm → In tm (pending l).
Proof.
  unfold nextDue. intros Hin%earliest_In. by apply List.filter_In in Hin as [? _].
Qed.

Lemma filter_length_lt {X} (f : X → bool) (xs : list X) x :
  In x xs → f x = false → length (List.filter f xs) < length xs.
Proof.
  induction xs as [|y xs IH]; [done|]. intros [->|Hin] Hf; cbn.
  - rewrite Hf. pose proof (List.filter_length_le f xs). lia.
  - specialize (IH Hin Hf). destruct (f y); cbn; lia.
Qed.

Lemma fire_length tm (l : Loop) :
  In tm (pending l) → length (pending (fire func tm l)) < length (pending l).
Proof.
  intros Hin. unfold fire, later, clearTimeout. cbn.
  eapply Nat.le_lt_trans; [apply List.filter_length_le|].
  apply (filter_length_lt _ _ tm); [done|]. by rewrite bool_decide_eq_true_2.
Qed.

Lemma advance_complete fuel t (l : Loop) :
  (length (pending l) ≤ fuel)%nat → nextDue t (advance func fuel t l) = None.
Proof.
  revert l. induction fuel as [|fuel IH]; intros l Hlen; cbn.
  - unfold nextDue. destruct (pending l); [done | cbn in Hlen; lia].
  - destruct (nextDue t l) as [tm|] eqn:Hnext; [|done].
    apply IH. pose proof (fire_length tm l (nextDue_In _ _ _ Hnext)). lia.
Qed.

(** The loop does not stop early: after [runUntil t] no timer due by [t]
    is still pending. *)
Lemma runUntil_complete t (l : Loop) : nextDue t (runUntil func t l) = None.
Proof.
  unfold runUntil.
  pose proof (advance_complete (length (pending l)) t l (le_n _)) as H.
  exact H.
Qed.

End debounce_facts.

(** A call that comes after the wait has elapsed starts a new burst: here
    the action runs twice. *)
Example debounce_two_bursts :
  invoked (runUntil cons 900
             (play cons 250 [(0%Z, 1); (100%Z, 2); (400%Z, 3)] (fresh 0 ([] : list nat)))) =
    [2; 3].
Proof. vm_compute. reflexivity. Qed.

(** * Further properties *)

(** ** Mobile navigation: the controls follow the flag *)

Lemma toggleMobileNav_aria w :
  (∀ e, navToggle (DOM (toggleMobileNav w)) = Some e →
        getAttribute "aria-expanded" e =
          Some (toString (navigationActive (AppState (toggleMobileNav w))))) ∧
  (∀ e, navMenu (DOM (toggleMobileNav w)) = Some e →
        getAttribute "aria-hidden" e =
          Some (toString (negb (navigationActive (AppState (toggleMobileNav w)))))).
Proof.
  rewrite toggleMobileNav_navToggle, toggleMobileNav_navMenu, toggleMobileNav_flag.
  split.
  - destruct (navToggle (DOM w)); intros e' [= <-]. apply lookup_insert_eq.
  - destruct (navMenu (DOM w)); intros e' [= <-]. rewrite negb_involutive.
    apply lookup_insert_eq.
Qed.

(** X1. After every call of [toggleMobileNav], whatever the state before,
    [aria-expanded] on the toggle spells the new value of the flag and
    [aria-hidden] on the menu spells its negation; the flag itself is the
    negation of what it was. *)
Theorem toggleMobileNav_aria_mirrors (w : World) :
  navigationActive (AppState (toggleMobileNav w)) = negb (navigationActive (AppState w)) ∧
  (∀ e, navToggle (DOM (toggleMobileNav w)) = Some e →
        getAttribute "aria-expanded" e =
          Some (toString (navigationActive (AppState (toggleMobileNav w))))) ∧
  (∀ e, navMenu (DOM (toggleMobileNav w)) = Some e →
        getAttribute "aria-hidden" e =
          Some (toString (negb (navigationActive (AppState (toggleMobileNav w)))))).
Proof. split; [apply toggleMobileNav_flag | apply toggleMobileNav_aria]. Qed.

Lemma navSynced_ext w1 w2 :
  AppState w1 = AppState w2 → navToggle (DOM w1) = navToggle (DOM w2) →
  navMenu (DOM w1) = navMenu (DOM w2) → navSynced w1 → navSynced w2.
Proof. unfold navSynced. by intros -> -> ->. Qed.

Lemma toggleMobileNav_navSynced w : navSynced w → navSynced (toggleMobileNav w).
Proof.
  intros [Htoggle Hmenu].
  destruct (toggleMobileNav_aria w) as [Hexp Hhid].
  split; intros e He; (split; [|by auto]).
  - rewrite toggleMobileNav_navToggle in He. rewrite toggleMobileNav_flag.
    destruct (navToggle (DOM w)) as [e0|]; [|done]. injection He as <-. cbn.
    rewrite elem_of_toggle. destruct (Htoggle e0 eq_refl) as [-> _].
    by destruct (navigationActive (AppState w)).
  - rewrite toggleMobileNav_navMenu in He. rewrite toggleMobileNav_flag.
    destruct (navMenu (DOM w)) as [e0|]; [|done]. injection He as <-. cbn.
    rewrite elem_of_toggle. destruct (Hmenu e0 eq_refl) as [-> _].
    by destruct (navigationActive (AppState w)).
Qed.

(** What the resize listener comes to: one [toggleMobileNav] when the
    viewport is wide and the menu open, nothing otherwise.  The branch of
    [updateMobileNavigation] never runs after it. *)
Lemma resize_cases px w :
  resize px w =
  if (768 <? px)%Z && navigationActive (AppState w)
  then toggleMobileNav (withWindow (setInnerWidth px) w)
  else withWindow (setInnerWidth px) w.
Proof.
  unfold resize, handleWindowResize, updateMobileNavigation. cbn.
  destruct (768 <? px)%Z eqn:Hwide, (navigationActive (AppState w)) eqn:Hopen; cbn;
    rewrite ?Hopen, ?andb_false_r; try done.
  apply Z.ltb_ge in Hwide. by rewrite (proj2 (Z.leb_le _ _)) by lia.
Qed.



Lemma handleNavigation_finalState i w link :
  navLinks (DOM w) !! i = Some link →
  ∃ w1 w2,
    w1 = withDOM (withNavLinks (alter (withClassList (ClassList.add "active")) i))
           (withDOM (withNavLinks (fmap (withClassList (ClassList.remove "active")))) w) ∧
    w2 = (if navigationActive (AppState w) then toggleMobileNav w1 else w1) ∧
    handleNavigation i w =
      match getAttribute "href" link with
      | None => Throw TypeError w2
      | Some href =>
          Normal (trackNavigation href
                    (if startsWithHash href
                     then withAppState (setCurrentPage (substring1 href))
                            (scrollToSection (substring1 href) w2)
                     else w2))
      end.
Proof.
  intros Hi. eexists _, _. split; [reflexivity|]. split; [reflexivity|].
  unfold handleNavigation. rewrite Hi. by destruct (getAttribute "href" link).
Qed.

Lemma scrollToSection_AppState id w : AppState (scrollToSection id w) = AppState w.
Proof. unfold scrollToSection. by destruct (getElementById _ _). Qed.

Lemma scrollToSection_DOM id w : DOM (scrollToSection id w) = DOM w.
Proof. unfold scrollToSection. by destruct (getElementById _ _). Qed.

Lemma scrollToSection_tracked id w : tracked (scrollToSection id w) = tracked w.
Proof. unfold scrollToSection. by destruct (getElementById _ _). Qed.

(** The parts of the state the menu lives in, after [handleNavigation]. *)
Lemma handleNavigation_menu i w link :
  navLinks (DOM w) !! i = Some link →
  let w' := finalState (handleNavigation i w) in
  let after := if navigationActive (AppState w) then toggleMobileNav w else w in
  navigationActive (AppState w') = navigationActive (AppState after) ∧
  navToggle (DOM w') = navToggle (DOM after) ∧
  navMenu (DOM w') = navMenu (DOM after).
Proof.
  intros Hi. destruct (handleNavigation_finalState i w link Hi) as (w1 & w2 & -> & -> & ->).
  cbv zeta.
  destruct (getAttribute "href" link) as [href|]; cbn [finalState];
    [destruct (startsWithHash href)|]; cbn;
    rewrite ?scrollToSection_AppState, ?scrollToSection_DOM;
    by destruct (navigationActive (AppState w)).
Qed.

(** X2. The four event handlers that touch the mobile menu keep the
    controls in step with the flag: if, before the event, each control on
    the page carries the class [active] exactly when the menu is open and
    its ARIA attribute says so, the same holds after [toggleMobileNav],
    after a resize, after a keydown and after [handleNavigation], whether
    that one returns or throws. *)
Theorem navSynced_preserved (w : World) :
  navSynced w →
  navSynced (toggleMobileNav w) ∧
  (∀ px, navSynced (resize px w)) ∧
  (∀ key, navSynced (keydown key w)) ∧
  (∀ i, navSynced (finalState (handleNavigation i w))).
Proof.
  intros Hsync. split; [by apply toggleMobileNav_navSynced|]. split; [|split].
  - intros px. rewrite resize_cases. destruct (_ && _).
    + apply toggleMobileNav_navSynced. by apply (navSynced_ext w).
    + by apply (navSynced_ext w).
  - intros key. unfold keydown, handleKeyboardNavigation.
    set (w1 := if _ && _ then toggleMobileNav w else w).
    assert (navSynced w1) as Hw1.
    { subst w1. destruct (_ && _); [by apply toggleMobileNav_navSynced | done]. }
    destruct (bool_decide (key = "Tab")); [|done]. by apply (navSynced_ext w1).
  - intros i. destruct (navLinks (DOM w) !! i) as [link|] eqn:Hi.
    + destruct (handleNavigation_menu i w link Hi) as (Hflag & Htoggle & Hmenu).
      set (after := if navigationActive (AppState w) then toggleMobileNav w else w) in *.
      assert (navSynced after) as Hafter.
      { subst after. destruct (navigationActive (AppState w));
          [by apply toggleMobileNav_navSynced | done]. }
      destruct Hafter as [Ht Hm]. unfold navSynced.
      rewrite Hflag, Htoggle, Hmenu. by split.
    + unfold handleNavigation. by rewrite Hi.
Qed.

Lemma samplePage_navSynced : navSynced samplePage.
Proof.
  split; intros e [= <-]; cbn; (split; [|reflexivity]);
    (split; [|done]); intros Hin; set_unfold in Hin; naive_solver.
Qed.

Lemma navSynced_preserved_witness :
  navSynced samplePage ∧ navSynced (toggleMobileNav samplePage).
Proof.
  split; [exact samplePage_navSynced|].
  apply (navSynced_preserved samplePage). exact samplePage_navSynced.
Defined.

(** X3. A resize that leaves the viewport at 768 pixels or less changes
    nothing but the recorded width: an open menu stays open. *)
Theorem resize_narrow_keeps (w : World) (px : Z) :
  (px ≤ 768)%Z → resize px w = withWindow (setInnerWidth px) w.
Proof.
  intros Hnarrow. rewrite resize_cases.
  by rewrite (proj2 (Z.ltb_ge _ _)) by lia.
Qed.

Lemma resize_narrow_keeps_witness :
  (500 ≤ 768)%Z ∧ resize 500 openWidePage = withWindow (setInnerWidth 500) openWidePage.
Proof. split; [lia|]. apply (resize_narrow_keeps openWidePage 500). lia. Defined.

(** X4. The resize listener is idempotent: a second resize event at the
    same width changes nothing more. *)
Theorem resize_idempotent (w : World) (px : Z) :
  resize px (resize px w) = resize px w.
Proof.
  rewrite (resize_cases px w).
  destruct ((768 <? px)%Z && navigationActive (AppState w)) eqn:Hcase.
  - apply andb_true_iff in Hcase as [Hwide Hopen].
    rewrite resize_cases, toggleMobileNav_flag. cbn. rewrite Hopen, andb_false_r.
    by apply world_eq.
  - rewrite resize_cases. cbn. rewrite Hcase. by apply world_eq.
Qed.

(** X5. A resize to more than 768 pixels with the menu open runs exactly
    one [toggleMobileNav]: the menu is closed and, unlike after
    [updateMobileNavigation] alone, the ARIA attributes say closed. *)
Theorem resize_wide_open_toggles (w : World) (px : Z) :
  (768 < px)%Z → navigationActive (AppState w) = true →
  resize px w = toggleMobileNav (withWindow (setInnerWidth px) w) ∧
  (∀ e, navToggle (DOM (resize px w)) = Some e →
        getAttribute "aria-expanded" e = Some "false") ∧
  (∀ e, navMenu (DOM (resize px w)) = Some e →
        getAttribute "aria-hidden" e = Some "true").
Proof.
  intros Hwide Hopen.
  assert (resize px w = toggleMobileNav (withWindow (setInnerWidth px) w)) as ->.
  { rewrite resize_cases, Hopen. by rewrite (proj2 (Z.ltb_lt _ _)) by lia. }
  split; [done|].
  destruct (toggleMobileNav_aria (withWindow (setInnerWidth px) w)) as [Hexp Hhid].
  split; intros e He.
  - rewrite (Hexp e He), toggleMobileNav_flag. cbn. by rewrite Hopen.
  - rewrite (Hhid e He), toggleMobileNav_flag. cbn. by rewrite Hopen.
Qed.

Lemma resize_wide_open_toggles_witness :
  (768 < 1024)%Z ∧ navigationActive (AppState openWidePage) = true ∧
  resize 1024 openWidePage = toggleMobileNav (withWindow (setInnerWidth 1024) openWidePage).
Proof.
  split; [lia|]. split; [reflexivity|].
  apply (resize_wide_open_toggles openWidePage 1024); [lia | reflexivity].
Defined.

(** ** Navigation links *)

Lemma toggleMobileNav_navLinks w : navLinks (DOM (toggleMobileNav w)) = navLinks (DOM w).
Proof. reflexivity. Qed.

Lemma handleNavigation_navLinks i w link :
  navLinks (DOM w) !! i = Some link →
  navLinks (DOM (finalState (handleNavigation i w))) =
  alter (withClassList (ClassList.add "active")) i
        (withClassList (ClassList.remove "active") <$> navLinks (DOM w)).
Proof.
  intros Hi. destruct (handleNavigation_finalState i w link Hi) as (w1 & w2 & -> & -> & ->).
  destruct (getAttribute "href" link) as [href|]; cbn [finalState];
    [destruct (startsWithHash href)|]; cbn;
    rewrite ?scrollToSection_DOM;
    by destruct (navigationActive (AppState w)).
Qed.

(** X6. Activating a navigation link always leaves the mobile menu
    closed, whether the handler returns or throws. *)
Theorem handleNavigation_closes_menu (w : World) (i : nat) :
  is_Some (navLinks (DOM w) !! i) →
  navigationActive (AppState (finalState (handleNavigation i w))) = false.
Proof.
  intros [link Hi]. destruct (handleNavigation_menu i w link Hi) as (-> & _).
  destruct (navigationActive (AppState w)) eqn:Hopen; [|done].
  by rewrite toggleMobileNav_flag, Hopen.
Qed.

Lemma handleNavigation_closes_menu_witness :
  is_Some (navLinks (DOM openWidePage) !! 1) ∧
  navigationActive (AppState (finalState (handleNavigation 1 openWidePage))) = false.
Proof.
  assert (is_Some (navLinks (DOM openWidePage) !! 1)) as Hi by (by eexists).
  split; [exact Hi|]. exact (handleNavigation_closes_menu openWidePage 1 Hi).
Defined.

Lemma handleNavigationInside_navLinks child w :
  navLinks (DOM (finalState (fst (handleNavigationInside child w)))) =
  withClassList (ClassList.remove "active") <$> navLinks (DOM w).
Proof.
  unfold handleNavigationInside. cbn [fst].
  destruct (getAttribute "href" child) as [href|]; cbn [finalState];
    [destruct (startsWithHash href)|]; cbn;
    rewrite ?scrollToSection_DOM;
    by destruct (navigationActive (AppState w)).
Qed.

(** X7. After [handleNavigation], returning or throwing, the class
    [active] is on [event.target] and on no navigation link besides: when
    a link itself was clicked it is the one link that has the class; when
    an element inside a link was clicked, that element has it and no link
    does. *)
Theorem handleNavigation_marks_one (w : World) :
  (∀ i, is_Some (navLinks (DOM w) !! i) →
     ∀ j link', navLinks (DOM (finalState (handleNavigation i w))) !! j = Some link' →
                ("active" ∈ classList link' ↔ j = i)) ∧
  (∀ child,
     "active" ∈ classList (snd (handleNavigationInside child w)) ∧
     ∀ j link',
       navLinks (DOM (finalState (fst (handleNavigationInside child w)))) !! j = Some link' →
       "active" ∉ classList link').
Proof.
  split.
  - intros i [link Hi] j link'. rewrite (handleNavigation_navLinks i w link Hi).
    destruct (decide (j = i)) as [->|Hne].
    + rewrite list_lookup_alter_eq, list_lookup_fmap, Hi. cbn. intros [= <-]. cbn.
      rewrite elem_of_add. naive_solver.
    + rewrite list_lookup_alter_ne, list_lookup_fmap by done.
      destruct (navLinks (DOM w) !! j); intros [= <-]. cbn.
      rewrite elem_of_remove. naive_solver.
  - intros child. split.
    + cbn -[ClassList.add]. rewrite elem_of_add. by left.
    + intros j link'. rewrite handleNavigationInside_navLinks, list_lookup_fmap.
      destruct (navLinks (DOM w) !! j); intros [= <-]. cbn -[ClassList.remove].
      rewrite elem_of_remove. naive_solver.
Qed.

(** What the handler does once [event.target] was marked and the menu
    closed, for a target with an [href]. *)
Lemma navigation_tail w w2 href :
  document w2 = document w → window w2 = window w → tracked w2 = tracked w →
  currentPage (AppState w2) = currentPage (AppState w) →
  let w' := trackNavigation href
              (if startsWithHash href
               then withAppState (setCurrentPage (substring1 href))
                      (scrollToSection (substring1 href) w2)
               else w2) in
  tracked w' = tracked w ++ ["Navigation tracked: " +:+ href] ∧
  document w' = document w ∧
  (startsWithHash href = true →
     currentPage (AppState w') = substring1 href ∧
     window w' = window (scrollToSection (substring1 href) w)) ∧
  (startsWithHash href = false →
     currentPage (AppState w') = currentPage (AppState w) ∧
     window w' = window w).
Proof.
  intros Hdoc Hwin Htr Hpage. cbv zeta.
  destruct (startsWithHash href); cbn.
  - rewrite scrollToSection_tracked, scrollToSection_document, Htr, Hdoc.
    split; [done|]. split; [done|]. split; [|done]. intros _. split; [done|].
    unfold scrollToSection. rewrite Hdoc.
    destruct (getElementById _ _); cbn; by rewrite ?Hwin.
  - rewrite Htr, Hdoc, Hwin, Hpage. by repeat split.
Qed.

(** X8. What [handleNavigation] does is decided by the [href] of
    [event.target].  When the target has one, be it the link or an
    element inside it, the handler completes normally and logs one
    telemetry entry naming that [href]; the current page and the scroll
    position change exactly when the [href] starts with [#], to the rest
    of the [href] and as [scrollToSection] does for it.  When the target
    is an element inside a link and has no [href] of its own, the handler
    throws a TypeError and logs nothing, whatever [href] the link has. *)
Theorem handleNavigation_with_href (w : World) :
  (∀ i link href,
     navLinks (DOM w) !! i = Some link → getAttribute "href" link = Some href →
     ∃ w', handleNavigation i w = Normal w' ∧
           tracked w' = tracked w ++ ["Navigation tracked: " +:+ href] ∧
           document w' = document w ∧
           (startsWithHash href = true →
              currentPage (AppState w') = substring1 href ∧
              window w' = window (scrollToSection (substring1 href) w)) ∧
           (startsWithHash href = false →
              currentPage (AppState w') = currentPage (AppState w) ∧
              window w' = window w)) ∧
  (∀ child href,
     getAttribute "href" child = Some href →
     ∃ w', fst (handleNavigationInside child w) = Normal w' ∧
           tracked w' = tracked w ++ ["Navigation tracked: " +:+ href] ∧
           document w' = document w ∧
           (startsWithHash href = true →
              currentPage (AppState w') = substring1 href ∧
              window w' = window (scrollToSection (substring1 href) w)) ∧
           (startsWithHash href = false →
              currentPage (AppState w') = currentPage (AppState w) ∧
              window w' = window w)) ∧
  (∀ child,
     getAttribute "href" child = None →
     ∃ w', fst (handleNavigationInside child w) = Throw TypeError w' ∧
           tracked w' = tracked w).
Proof.
  split; [|split].
  - intros i link href Hi Hhref.
    destruct (handleNavigation_finalState i w link Hi) as (w1 & w2 & -> & -> & ->).
    rewrite Hhref. eexists. split; [reflexivity|].
    apply navigation_tail; by destruct (navigationActive (AppState w)).
  - intros child href Hhref. unfold handleNavigationInside. rewrite Hhref. cbn [fst].
    eexists. split; [reflexivity|].
    apply navigation_tail; cbn; by destruct (navigationActive (AppState w)).
  - intros child Hhref. unfold handleNavigationInside. rewrite Hhref. cbn [fst].
    eexists. split; [reflexivity|]. cbn. by destruct (navigationActive (AppState w)).
Qed.

(** On the sample page, a click on a [span] inside the link to
    [#features]: the handler throws, the [span] is marked and no link is. *)
Example handleNavigationInside_sample :
  (∃ w', fst (handleNavigationInside (mkElement "SPAN" [] ∅) samplePage) =
           Throw TypeError w' ∧ tracked w' = []) ∧
  classList (snd (handleNavigationInside (mkElement "SPAN" [] ∅) samplePage)) =
    ["active"] ∧
  map classList
    (navLinks (DOM (finalState (fst (handleNavigationInside (mkElement "SPAN" [] ∅)
                                       samplePage))))) =
    [["nav-link"]; ["nav-link"]; ["nav-link"]; ["nav-link"]].
Proof. split; [by eexists|]. split; vm_compute; reflexivity. Qed.

(** ** Scrolling *)

(** X9. [scrollToSection] with an id no section has changes nothing.
    With an id a section has, it requests the section's [offsetTop] less
    the height of the header, or less nothing when the page has no header,
    and changes nothing else.  Asking twice is the same as asking once. *)
Theorem scrollToSection_behaviour (w : World) (id : string) :
  (getElementById id (document w) = None → scrollToSection id w = w) ∧
  (∀ top, getElementById id (document w) = Some top →
     scrolledTo (window (scrollToSection id w)) =
       Some (top - default 0 (headerOffsetHeight (document w)))%Z ∧
     innerWidth (window (scrollToSection id w)) = innerWidth (window w) ∧
     locationHash (window (scrollToSection id w)) = locationHash (window w) ∧
     AppState (scrollToSection id w) = AppState w ∧
     DOM (scrollToSection id w) = DOM w ∧
     document (scrollToSection id w) = document w ∧
     tracked (scrollToSection id w) = tracked w) ∧
  scrollToSection id (scrollToSection id w) = scrollToSection id w.
Proof.
  unfold scrollToSection. split; [|split].
  - by intros ->.
  - by intros top ->.
  - destruct (getElementById id (document w)) as [top|] eqn:Hid.
    + cbn [document withWindow]. rewrite Hid. by apply world_eq.
    + by rewrite Hid.
Qed.

(** ** Start-up *)

Lemma add_add tok l : ClassList.add tok (ClassList.add tok l) = ClassList.add tok l.
Proof.
  unfold ClassList.add at 1.
  by rewrite (proj2 (contains_true tok _)) by (apply elem_of_add; by left).
Qed.

Lemma remove_remove tok l :
  ClassList.remove tok (ClassList.remove tok l) = ClassList.remove tok l.
Proof. apply remove_absent. rewrite elem_of_remove. naive_solver. Qed.

Lemma updateActiveNavigation_idempotent w :
  updateActiveNavigation (updateActiveNavigation w) = updateActiveNavigation w.
Proof.
  apply world_eq; try reflexivity. apply DOM_eq; try reflexivity.
  cbn. fold (currentHash w). rewrite <- list_fmap_compose.
  apply list_fmap_ext. intros _ link _. cbn.
  unfold getAttribute.
  destruct (bool_decide (attributes link !! "href" = Some ("#" +:+ currentHash w)))
    eqn:Hhref; cbn [attributes withClassList]; rewrite Hhref;
    unfold withClassList; cbn [classList tagName attributes].
  - by rewrite add_add.
  - by rewrite remove_remove.
Qed.

Lemma updateMobileNavigation_idempotent w :
  updateMobileNavigation (updateMobileNavigation w) = updateMobileNavigation w.
Proof.
  unfold updateMobileNavigation.
  destruct (negb (innerWidth (window w) <=? 768)%Z && navigationActive (AppState w))
    eqn:Hcase; cbn; [|by rewrite Hcase].
  by rewrite andb_false_r.
Qed.

Lemma update_navigation_commute w :
  updateActiveNavigation (updateMobileNavigation w) =
  updateMobileNavigation (updateActiveNavigation w).
Proof.
  unfold updateMobileNavigation. cbn.
  destruct (negb (innerWidth (window w) <=? 768)%Z && navigationActive (AppState w));
    [|done].
  apply world_eq; try reflexivity.
Qed.

(** X10. Setting the active link and the start-up routine
    [initializeNavigation] are idempotent: running either a second time
    changes nothing.  With the menu closed, as it is when the page loads,
    [initializeNavigation] does what [updateActiveNavigation] does. *)
Theorem initializeNavigation_idempotent (w : World) :
  updateActiveNavigation (updateActiveNavigation w) = updateActiveNavigation w ∧
  initializeNavigation (initializeNavigation w) = initializeNavigation w ∧
  (navigationActive (AppState w) = false →
     initializeNavigation w = updateActiveNavigation w).
Proof.
  split; [apply updateActiveNavigation_idempotent|]. split.
  - unfold initializeNavigation.
    rewrite update_navigation_commute, updateMobileNavigation_idempotent.
    by rewrite updateActiveNavigation_idempotent.
  - intros Hoff. unfold initializeNavigation, updateMobileNavigation. cbn.
    by rewrite Hoff, andb_false_r.
Qed.

(** ** Crisis modal: what a click can and cannot do *)

Lemma removeNode_keeps_other modal w c :
  fst c ≠ modal → c ∈ bodyChildren (document w) →
  c ∈ bodyChildren (document (removeNode modal w)).
Proof. intros Hne Hin. cbn. by apply list_elem_of_filter. Qed.

Lemma runListeners_keeps_other target node ls w c :
  Forall (λ l, snd l = closeModalClick (fst (fst l)) ∨
               snd l = backdropClick (fst (fst l))) ls →
  fst c ≠ fst target → c ∈ bodyChildren (document w) →
  c ∈ bodyChildren (document (runListeners target node ls w)).
Proof.
  intros Hown Hne. revert w. induction Hown as [|l ls Hl Hown IH]; intros w Hin; [done|].
  cbn. apply IH. case_bool_decide as Hon; [|done].
  assert (fst (fst l) = fst target) as Hid by by rewrite Hon.
  destruct Hl as [-> | ->]; cbn [runHandler]; rewrite Hid.
  - by apply removeNode_keeps_other.
  - case_bool_decide; [by apply removeNode_keeps_other | done].
Qed.

(** X12. A click inside a node the script added to the body, a modal or
    the skip link, removes at most that node: with listeners as
    [createEmergencyModal] installs them, every other child of the body,
    each other modal among them, is still there after the click. *)
Theorem click_only_own_modal (w : World) (target : NodeRef) :
  ownListeners w →
  ∀ c, c ∈ bodyChildren (document w) → fst c ≠ fst target →
       c ∈ bodyChildren (document (click target w)).
Proof.
  intros Hown%Forall_forall. unfold click.
  destruct (elementAt target w) as [e|]; [|done].
  rewrite handleSmoothScroll_document.
  generalize dependent (clickListeners (document w)). intros ls Hown.
  generalize (propagationPath (snd target)) as nodes. intros nodes. revert w.
  induction nodes as [|node nodes IH]; intros w; [done|]. cbn [foldl].
  intros c Hin Hne. apply IH; [|done]. by apply runListeners_keeps_other.
Qed.

Lemma showEmergencyResources_ownListeners w :
  ownListeners w → ownListeners (showEmergencyResources w).
Proof.
  intros Hown l. rewrite showEmergencyResources_document. cbn.
  intros [Hin|Hin]%elem_of_app; [by apply Hown|].
  set_unfold in Hin. destruct Hin as [->|[->|[]]]; cbn; auto.
Qed.

Lemma samplePage_ownListeners : ownListeners samplePage.
Proof. intros l Hin. by apply elem_of_nil in Hin. Qed.

Lemma click_only_own_modal_witness :
  ownListeners (showEmergencyResources (showEmergencyResources samplePage)) ∧
  (0, emergencyModalTree) ∈
    bodyChildren (document (click (1, [0; 2])
      (showEmergencyResources (showEmergencyResources samplePage)))).
Proof.
  assert (ownListeners (showEmergencyResources (showEmergencyResources samplePage))) as Hown.
  { do 2 apply showEmergencyResources_ownListeners. exact samplePage_ownListeners. }
  split; [exact Hown|].
  apply (click_only_own_modal _ (1, [0; 2]) Hown); [|cbn; lia].
  rewrite !showEmergencyResources_bodyChildren. cbn. set_solver.
Defined.

Lemma bool_decide_ref (modal : nat) (a b : list nat) :
  bool_decide ((modal, a) = (modal, b)) = bool_decide (a = b).
Proof. apply bool_decide_ext. split; [by intros [= ->] | by intros ->]. Qed.

(** The listeners of [document (showEmergencyResources w)] at one node of
    the propagation path, for a click in the new modal. *)
Lemma runListeners_shown w path node w' :
  wellFormed w →
  runListeners (nextNode (document w), path) node
               (clickListeners (document (showEmergencyResources w))) w' =
  let w1 := if bool_decide ([0; 2] = node) then removeNode (nextNode (document w)) w'
            else w' in
  if bool_decide ([] = node) && bool_decide (path = [])
  then removeNode (nextNode (document w)) w1 else w1.
Proof.
  intros Hwf. rewrite showEmergencyResources_document.
  cbn [clickListeners]. rewrite runListeners_app.
  rewrite (runListeners_elsewhere _ _ (clickListeners (document w)))
    by exact (wellFormed_fresh_listeners w Hwf).
  cbn. rewrite !bool_decide_ref.
  by repeat case_bool_decide.
Qed.

(** No element of the modal makes the listener on [document] scroll: its
    three links lead out of the page. *)
Lemma modal_elements_no_scroll path e w :
  nodeAt path emergencyModalTree ≫= elementOf = Some e → handleSmoothScroll e w = w.
Proof.
  intros He. unfold handleSmoothScroll.
  assert (bool_decide (tagName e = "A")
          && from_option startsWithHash false (getAttribute "href" e) = false) as ->;
    [|done].
  do 7 (try (destruct path as [|[|[|[|?]]] path]; cbn in He;
             try discriminate He;
             try (injection He as <-; vm_compute; reflexivity))).
Qed.

Lemma filter_fresh (modal : nat) (tree : Node) (cs : list (nat * Node)) :
  Forall (λ c, fst c ≠ modal) cs →
  filter (λ c, fst c ≠ modal) (cs ++ [(modal, tree)]) = cs.
Proof.
  intros Hcs. rewrite filter_app, filter_cons_False, filter_nil, app_nil_r by naive_solver.
  induction Hcs as [|c cs Hc Hcs IH]; [done|].
  by rewrite filter_cons_True, IH.
Qed.

Lemma removeNode_shown w :
  wellFormed w →
  bodyChildren (document (removeNode (nextNode (document w)) (showEmergencyResources w))) =
  bodyChildren (document w).
Proof.
  intros Hwf. unfold removeNode.
  cbn [document withDocument bodyChildren withBodyChildren blurRemoved].
  rewrite showEmergencyResources_bodyChildren.
  by apply filter_fresh, wellFormed_fresh_children.
Qed.

(** X13. Showing the modal and then dismissing it, by its close control
    or by a click on the backdrop, gives the body back the children it had
    before, in the same order; the application state, the cached controls,
    the window and the telemetry log are untouched by the two steps. *)
Theorem show_then_dismiss (w : World) (target : list nat) :
  wellFormed w →
  target = [0; 2] ∨ target = [] →
  let w' := click (nextNode (document w), target) (showEmergencyResources w) in
  bodyChildren (document w') = bodyChildren (document w) ∧
  AppState w' = AppState w ∧ DOM w' = DOM w ∧ window w' = window w ∧
  tracked w' = tracked w.
Proof.
  intros Hwf Htarget. cbv zeta.
  assert (click (nextNode (document w), target) (showEmergencyResources w) =
          removeNode (nextNode (document w)) (showEmergencyResources w)) as ->.
  { unfold click. rewrite elementAt_shown by done.
    destruct (nodeAt target emergencyModalTree ≫= elementOf) as [e|] eqn:He;
      [|destruct Htarget as [-> | ->]; by vm_compute in He].
    rewrite (modal_elements_no_scroll target e) by done. cbn [snd].
    destruct Htarget as [-> | ->].
    - change (propagationPath [0; 2]) with [[0; 2]; [0]; []]. cbn [foldl].
      by rewrite !runListeners_shown.
    - change (propagationPath []) with [[] : list nat]. cbn [foldl].
      by rewrite runListeners_shown. }
  split; [by apply removeNode_shown|]. done.
Qed.

Lemma show_then_dismiss_witness :
  wellFormed samplePage ∧ ([] : list nat) = [] ∧
  bodyChildren (document (click (0, []) (showEmergencyResources samplePage))) =
  bodyChildren (document samplePage).
Proof.
  split; [exact samplePage_wellFormed|]. split; [reflexivity|].
  apply (show_then_dismiss samplePage [] samplePage_wellFormed). by right.
Defined.

(** X14. A click in the content region of the modal anywhere but on the
    close control changes nothing at all: the modal stays, nothing
    scrolls, and the links to the dialler and the messaging application
    are left to the browser. *)
Theorem click_content_no_effect (w : World) (path : list nat) :
  wellFormed w → inContentRegion path →
  querySelector (classSelector "close-modal") emergencyModalTree ≠ Some path →
  click (nextNode (document w), path) (showEmergencyResources w) =
  showEmergencyResources w.
Proof.
  intros Hwf [Hcontent Helem]%inContentRegion_prefix Hclose.
  rewrite closeControl_path in Hclose.
  unfold click. rewrite elementAt_shown by done.
  destruct Helem as [e He]. rewrite He.
  rewrite (modal_elements_no_scroll path e) by done. cbn [snd].
  assert (path ≠ []) as Hne by (destruct Hcontent as [? ->]; done).
  assert (Forall (λ node, node ≠ [0; 2]) (propagationPath path)) as Hnodes.
  { apply Forall_forall. intros node Hin%propagationPath_prefix ->.
    apply Hclose. f_equal. symmetry. apply closeControl_leaf; [done|]. by exists e. }
  generalize (showEmergencyResources w) at 2 3 as w'.
  induction Hnodes as [|node nodes Hnode Hnodes IH]; intros w'; [done|].
  cbn. rewrite runListeners_content by done. apply IH.
Qed.

Lemma click_content_no_effect_witness :
  wellFormed samplePage ∧
  click (0, [0; 1; 0; 2]) (showEmergencyResources samplePage) =
  showEmergencyResources samplePage.
Proof.
  split; [exact samplePage_wellFormed|].
  apply (click_content_no_effect samplePage [0; 1; 0; 2] samplePage_wellFormed).
  - apply inContentRegion_prefix. split; [by exists [1; 0; 2]|].
    vm_compute. by eexists.
  - rewrite closeControl_path. discriminate.
Defined.

(** X15. The emergency button works whatever the state of the page: the
    new modal is in the document, keyboard focus is on its close control,
    one telemetry entry is logged, and the application state, the cached
    controls and the window are as before; node identities stay fresh. *)
Theorem handleEmergencyClick_presents (w : World) :
  wellFormed w →
  let w' := handleEmergencyClick w in
  modalPresent (nextNode (document w)) w' ∧
  (∃ e, activeElement (document w') ≫= (λ r, elementAt r w') = Some e ∧
        classSelector "close-modal" e = true) ∧
  tracked w' = tracked w ++ ["Emergency interaction tracked"] ∧
  AppState w' = AppState w ∧ DOM w' = DOM w ∧ window w' = window w ∧
  wellFormed w'.
Proof.
  intros Hwf. cbv zeta. unfold handleEmergencyClick, trackEmergencyInteraction.
  split; [apply (modalPresent_document _ (showEmergencyResources w));
          [done | apply modalPresent_shown]|].
  split.
  - assert (activeElement (document (showEmergencyResources w)) =
            Some (nextNode (document w), [0; 2])) as Hfocus
      by by rewrite showEmergencyResources_document.
    cbn [document track]. rewrite Hfocus. cbn [mbind option_bind].
    change (elementAt (nextNode (document w), [0; 2])
              (track "Emergency interaction tracked" (showEmergencyResources w)))
      with (elementAt (nextNode (document w), [0; 2]) (showEmergencyResources w)).
    rewrite elementAt_shown by done. eexists. split; vm_compute; reflexivity.
  - split; [done|]. split; [done|]. split; [done|]. split; [done|].
    apply (wellFormed_document (showEmergencyResources w)); [done|].
    by apply showEmergencyResources_wellFormed.
Qed.

Lemma handleEmergencyClick_presents_witness :
  wellFormed openWidePage ∧ modalPresent 0 (handleEmergencyClick openWidePage).
Proof.
  assert (wellFormed openWidePage) as Hwf.
  { apply (wellFormed_document samplePage); [done | exact samplePage_wellFormed]. }
  split; [exact Hwf|]. apply (handleEmergencyClick_presents openWidePage Hwf).
Defined.

(** ** Keyboard and mouse users *)

Lemma keydown_Tab w :
  keydown "Tab" w = withDocument (withBodyClassList (ClassList.add "keyboard-nav")) w.
Proof. reflexivity. Qed.

(** X16. A Tab keydown puts the class [keyboard-nav] on the body and a
    mousedown takes it off; neither touches any other class of the body,
    a key other than Tab leaves the classes alone, and a second Tab
    changes nothing. *)
Theorem keyboard_nav_class (w : World) :
  "keyboard-nav" ∈ bodyClassList (document (keydown "Tab" w)) ∧
  ("keyboard-nav" ∉ bodyClassList (document (handleMouseDown w))) ∧
  (∀ t, t ≠ "keyboard-nav" →
        (t ∈ bodyClassList (document (keydown "Tab" w)) ↔ t ∈ bodyClassList (document w)) ∧
        (t ∈ bodyClassList (document (handleMouseDown w)) ↔ t ∈ bodyClassList (document w))) ∧
  (∀ key, key ≠ "Tab" →
          bodyClassList (document (keydown key w)) = bodyClassList (document w)) ∧
  keydown "Tab" (keydown "Tab" w) = keydown "Tab" w.
Proof.
  rewrite !keydown_Tab. unfold handleMouseDown.
  cbn [document withDocument bodyClassList withBodyClassList].
  split; [|split; [|split; [|split]]].
  - rewrite elem_of_add. by left.
  - rewrite elem_of_remove. naive_solver.
  - intros t Ht. rewrite elem_of_add, elem_of_remove. naive_solver.
  - intros key Hkey. unfold keydown, handleKeyboardNavigation.
    rewrite (bool_decide_eq_false_2 (key = "Tab")) by done.
    by destruct (_ && _).
  - apply world_eq; try reflexivity. cbn -[ClassList.add].
    unfold withBodyClassList. cbn -[ClassList.add]. by rewrite add_add.
Qed.

(** ** Skip link *)

(** X17. [addSkipLinks] puts its link in front of the children the body
    had, which keep their order; it is not counted as an emergency modal
    and node identities stay fresh.  A click on it is answered by the
    listener on [document] alone, which scrolls to the section [main]. *)
Theorem addSkipLinks_first (w : World) :
  wellFormed w →
  let skipLink := nextNode (document w) in
  bodyChildren (document (addSkipLinks w)) =
    (skipLink, skipLinkTree) :: bodyChildren (document w) ∧
  emergencyModals (addSkipLinks w) = emergencyModals w ∧
  wellFormed (addSkipLinks w) ∧
  click (skipLink, []) (addSkipLinks w) = scrollToSection "main" (addSkipLinks w).
Proof.
  intros Hwf. cbv zeta. split; [done|]. split; [done|]. split.
  - destruct Hwf as [Hc Hl]. split; cbn.
    + intros c [->|Hin]%elem_of_cons; [cbn; lia|]. apply Hc in Hin. lia.
    + intros l Hin. apply Hl in Hin. lia.
  - unfold click, elementAt. cbn [fst snd document addSkipLinks withDocument
      bodyChildren withBodyChildren List.find].
    rewrite bool_decide_eq_true_2 by done. cbn [mbind option_bind snd nodeAt].
    change (elementOf skipLinkTree) with
      (Some (mkElement "A" ["skip-link"] (list_to_map [("href", "#main")]))).
    cbn [mbind option_bind].
    change (propagationPath []) with [[] : list nat]. cbn [foldl].
    rewrite runListeners_elsewhere by exact (wellFormed_fresh_listeners w Hwf).
    reflexivity.
Qed.

Lemma addSkipLinks_first_witness :
  wellFormed samplePage ∧
  bodyChildren (document (addSkipLinks samplePage)) =
    (0, skipLinkTree) :: bodyChildren (document samplePage).
Proof.
  split; [exact samplePage_wellFormed|].
  apply (addSkipLinks_first samplePage samplePage_wellFormed).
Defined.

(** ** Hero buttons *)

(** X18. A hero button always logs one telemetry entry with its trimmed
    label and never touches the application state, the cached controls or
    the document.  Exactly the label [Get Started] shows the onboarding
    message, without scrolling; exactly the label [Learn More] scrolls to
    the section [features], without a message; any other label does
    neither. *)
Theorem handleHeroButtonClick_cases (s : Session) (textContent : string) :
  let s' := handleHeroButtonClick textContent s in
  tracked (page s') =
    tracked (page s) ++ ["Button click tracked: hero " +:+ trim textContent] ∧
  AppState (page s') = AppState (page s) ∧ DOM (page s') = DOM (page s) ∧
  document (page s') = document (page s) ∧
  (trim textContent = "Get Started" →
     alerts s' = alerts s ++ ["Welcome! User dashboard and onboarding coming soon."] ∧
     window (page s') = window (page s)) ∧
  (trim textContent = "Learn More" →
     alerts s' = alerts s ∧
     window (page s') = window (scrollToSection "features" (page s))) ∧
  (trim textContent ≠ "Get Started" → trim textContent ≠ "Learn More" →
     alerts s' = alerts s ∧ window (page s') = window (page s)).
Proof.
  cbv zeta. unfold handleHeroButtonClick.
  destruct (decide (trim textContent = "Get Started")) as [Hgs|Hgs].
  - rewrite bool_decide_eq_true_2 by done. cbn.
    do 4 (split; [done|]). split; [done|]. split.
    + intros Hlm. by rewrite Hgs in Hlm.
    + by intros Hn.
  - rewrite (bool_decide_eq_false_2 (trim textContent = "Get Started")) by done.
    destruct (decide (trim textContent = "Learn More")) as [Hlm|Hlm].
    + rewrite bool_decide_eq_true_2 by done. cbn.
      rewrite scrollToSection_tracked, scrollToSection_AppState, scrollToSection_DOM,
        scrollToSection_document.
      do 4 (split; [done|]). split; [done|]. split; [done|]. by intros _ Hn.
    + rewrite bool_decide_eq_false_2 by done. cbn.
      do 4 (split; [done|]). split; [done|]. split; done.
Qed.

(** White space around the label does not count. *)
Example handleHeroButtonClick_padded :
  let s := handleHeroButtonClick "
      Learn More  " (mkSession samplePage []) in
  alerts s = [] ∧ scrolledTo (window (page s)) = Some 568%Z ∧
  tracked (page s) = ["Button click tracked: hero Learn More"].
Proof. cbv zeta. repeat split; vm_compute; reflexivity. Qed.

(** ** Feature cards *)

Lemma handleCardIntersection_cons entry entries cards :
  handleCardIntersection (entry :: entries) cards =
  handleCardIntersection entries
    (if isIntersecting entry
     then alter (λ c, setTransform "translateY(0)" (setOpacity "1" c))
                (entryTarget entry) cards
     else cards).
Proof. reflexivity. Qed.

Lemma handleCardIntersection_lookup entries cards i :
  handleCardIntersection entries cards !! i =
  (λ c, if intersects entries i then revealedStyle else c) <$> cards !! i.
Proof.
  revert cards. induction entries as [|[target inter] entries IH]; intros cards.
  - cbn. by destruct (cards !! i).
  - rewrite handleCardIntersection_cons, IH. cbn [isIntersecting entryTarget intersects existsb].
    fold (intersects entries i).
    destruct inter; cbn [andb orb]; [|done].
    destruct (decide (target = i)) as [->|Hne].
    + rewrite bool_decide_eq_true_2 by done. cbn [orb].
      rewrite list_lookup_alter_eq. destruct (cards !! i); [|done]. cbn.
      by destruct (intersects entries i).
    + rewrite bool_decide_eq_false_2 by done. cbn [orb].
      by rewrite list_lookup_alter_ne.
Qed.

(** X19. After a batch of intersection entries, a card is fully revealed,
    opacity [1] and no offset, if some entry of the batch reports it as
    intersecting, and is exactly as it was otherwise.  So a revealed card
    is never hidden again, and handling the same batch twice is the same
    as handling it once. *)
Theorem handleCardIntersection_reveals (entries : list Entry) (cards : list CardStyle) :
  (∀ i, handleCardIntersection entries cards !! i =
        (λ c, if intersects entries i then revealedStyle else c) <$> cards !! i) ∧
  (∀ i c, cards !! i = Some c → opacity c = "1" →
          opacity <$> handleCardIntersection entries cards !! i = Some "1") ∧
  handleCardIntersection entries (handleCardIntersection entries cards) =
  handleCardIntersection entries cards.
Proof.
  split; [apply handleCardIntersection_lookup|]. split.
  - intros i c Hc Hop. rewrite handleCardIntersection_lookup, Hc. cbn.
    destruct (intersects entries i); [done | by rewrite Hop].
  - apply list_eq. intros i. rewrite !handleCardIntersection_lookup.
    destruct (cards !! i); [|done]. cbn. by destruct (intersects entries i).
Qed.

(** X20. Hovering and leaving only move a card: neither changes the
    opacity of any card, so they can neither reveal nor hide one, and
    neither touches another card.  Leaving after hovering gives what
    leaving alone gives. *)
Theorem card_hover_leave (i : nat) (cards : list CardStyle) :
  handleCardLeave i (handleCardHover i cards) = handleCardLeave i cards ∧
  (∀ j, opacity <$> handleCardHover i cards !! j = opacity <$> cards !! j) ∧
  (∀ j, opacity <$> handleCardLeave i cards !! j = opacity <$> cards !! j) ∧
  (∀ j, j ≠ i → handleCardHover i cards !! j = cards !! j ∧
                 handleCardLeave i cards !! j = cards !! j).
Proof.
  unfold handleCardLeave, handleCardHover. split; [|split; [|split]].
  - apply list_eq. intros j. destruct (decide (j = i)) as [->|Hne].
    + rewrite !list_lookup_alter_eq. by destruct (cards !! i).
    + by rewrite !list_lookup_alter_ne.
  - intros j. destruct (decide (j = i)) as [->|Hne].
    + rewrite list_lookup_alter_eq. by destruct (cards !! i).
    + by rewrite list_lookup_alter_ne.
  - intros j. destruct (decide (j = i)) as [->|Hne].
    + rewrite list_lookup_alter_eq. by destruct (cards !! i).
    + by rewrite list_lookup_alter_ne.
  - intros j Hne. by rewrite !list_lookup_alter_ne.
Qed.

(** ** Debounce: any session *)

Section debounce_sessions.
Context {Args Target : Type}.
Variable func : Args → Target → Target.
Variable wait : Z.

Abbreviation Loop' := (@Debounce.Loop Args Target).

Lemma executedFunction_pending a (l : Loop') :
  oneTimer l →
  pending (executedFunction wait a l) =
    [mkTimer (nextTimer l) (now l + timerDelay wait)%Z a] ∧
  timeout (executedFunction wait a l) = Some (nextTimer l) ∧
  invoked (executedFunction wait a l) = invoked l ∧
  target (executedFunction wait a l) = target l ∧
  now (executedFunction wait a l) = now l.
Proof.
  intros Hone. unfold executedFunction. cbn.
  destruct Hone as [-> | (tm & -> & ->)]; cbn; [done|].
  by rewrite bool_decide_eq_true_2.
Qed.

(** What [runUntil] does when at most the latest timer is pending: it
    fires that timer if it is due, and nothing else happens. *)
Lemma runUntil_oneTimer_cases t (l : Loop') :
  oneTimer l →
  (pending (runUntil func t l) = pending l ∧ invoked (runUntil func t l) = invoked l ∧
   target (runUntil func t l) = target l ∧ timeout (runUntil func t l) = timeout l ∧
   (∀ tm, tm ∈ pending l → (t < due tm)%Z) ∧
   now (runUntil func t l) = Z.max (now l) t) ∨
  (∃ tm, pending l = [tm] ∧ (due tm ≤ t)%Z ∧
         pending (runUntil func t l) = [] ∧
         invoked (runUntil func t l) = invoked l ++ [args tm] ∧
         target (runUntil func t l) = func (args tm) (target l) ∧
         timeout (runUntil func t l) = timeout l ∧
         now (runUntil func t l) = Z.max (Z.max (now l) (due tm)) t).
Proof.
  intros [Hnone | (tm & Hone & Hto)]; unfold runUntil.
  - left. rewrite Hnone. cbn. rewrite Hnone. repeat split; try done.
    intros tm Hin. by apply elem_of_nil in Hin.
  - rewrite Hone. cbn. unfold nextDue. rewrite Hone. cbn.
    destruct (due tm <=? t)%Z eqn:Hdue; cbn.
    + right. exists tm. apply Z.leb_le in Hdue.
      unfold fire, later, clearTimeout. cbn. rewrite Hone. cbn.
      rewrite bool_decide_eq_true_2 by done. cbn. done.
    + left. apply Z.leb_gt in Hdue. repeat split; try done.
      intros tm' Hin. apply list_elem_of_singleton in Hin as ->. lia.
Qed.

Lemma runUntil_oneTimer t (l : Loop') : oneTimer l → oneTimer (runUntil func t l).
Proof.
  intros Hone. destruct (runUntil_oneTimer_cases t l Hone)
    as [(Hp & _ & _ & Hto & _ & _) | (tm & _ & _ & Hp & _)].
  - unfold oneTimer. by rewrite Hp, Hto.
  - by left.
Qed.

Lemma executedFunction_oneTimer a (l : Loop') :
  oneTimer l → oneTimer (executedFunction wait a l).
Proof.
  intros Hone. destruct (executedFunction_pending a l Hone) as (Hp & Hto & _).
  right. eexists. by rewrite Hp, Hto.
Qed.

(** X21. However the calls are timed, the debounced function never has
    more than one timer pending, and that timer is the one its variable
    [timeout] names: the property holds initially and is kept by every
    call, by every passage of time and so by every session. *)
Theorem debounce_one_timer (l : Loop') :
  oneTimer l →
  (∀ a, oneTimer (executedFunction wait a l)) ∧
  (∀ t, oneTimer (runUntil func t l)) ∧
  (∀ calls, oneTimer (play func wait calls l)).
Proof.
  intros Hone. split; [intros a; by apply executedFunction_oneTimer|].
  split; [intros t; by apply runUntil_oneTimer|].
  intros calls. revert l Hone. induction calls as [|call calls IH]; intros l Hone; [done|].
  change (play func wait (call :: calls) l)
    with (play func wait calls (executedFunction wait (snd call) (runUntil func (fst call) l))).
  by apply IH, executedFunction_oneTimer, runUntil_oneTimer.
Qed.

Lemma fromCalls_oneTimer done (l : Loop') : fromCalls done l → oneTimer l.
Proof.
  intros [[Hp _] | (tm & Hp & Hto & _)]; [by left | right; by exists tm].
Qed.

Lemma fromCalls_invoked done (l : Loop') :
  fromCalls done l → invoked l `sublist_of` done.
Proof.
  intros [[_ Hsub] | (tm & _ & _ & Hsub)]; [done|].
  etrans; [|exact Hsub]. by apply sublist_inserts_r.
Qed.

Lemma runUntil_fromCalls done t (l : Loop') :
  fromCalls done l → fromCalls done (runUntil func t l).
Proof.
  intros Hfrom.
  destruct (runUntil_oneTimer_cases t l (fromCalls_oneTimer _ _ Hfrom))
    as [(Hp & Hinv & _ & Hto & _ & _) | (tm & Hone & _ & Hp & Hinv & _)].
  - unfold fromCalls. by rewrite Hp, Hinv, Hto.
  - left. split; [done|]. rewrite Hinv.
    destruct Hfrom as [[Hnone _] | (tm' & Hp' & _ & Hsub)]; [by rewrite Hnone in Hone|].
    rewrite Hp' in Hone. by injection Hone as <-.
Qed.

Lemma executedFunction_fromCalls done a (l : Loop') :
  fromCalls done l → fromCalls (done ++ [a]) (executedFunction wait a l).
Proof.
  intros Hfrom.
  destruct (executedFunction_pending a l (fromCalls_oneTimer _ _ Hfrom))
    as (Hp & Hto & Hinv & _).
  right. eexists. split; [exact Hp|]. split; [exact Hto|]. rewrite Hinv. cbn [args].
  apply sublist_app; [|done]. by apply fromCalls_invoked.
Qed.

Lemma play_fromCalls done calls (l : Loop') :
  fromCalls done l → fromCalls (done ++ (snd <$> calls)) (play func wait calls l).
Proof.
  revert done l. induction calls as [|call calls IH]; intros done l Hfrom.
  - by rewrite app_nil_r.
  - rewrite fmap_cons, cons_middle, app_assoc.
    change (play func wait (call :: calls) l)
      with (play func wait calls (executedFunction wait (snd call) (runUntil func (fst call) l))).
    apply (IH (done ++ [snd call])).
    by apply executedFunction_fromCalls, runUntil_fromCalls.
Qed.

(** X22. However the calls are timed, the action is only ever invoked
    with arguments of calls that were made, in the order of the calls and
    at most once per call: the invocations form a subsequence of the
    calls, so there are never more invocations than calls. *)
Theorem debounce_invoked_sublist (calls : list (Z * Args)) (t0 T : Z) (x : Target) :
  invoked (runUntil func T (play func wait calls (fresh t0 x)))
    `sublist_of` (snd <$> calls) ∧
  (length (invoked (runUntil func T (play func wait calls (fresh t0 x)))) ≤ length calls)%nat.
Proof.
  assert (invoked (runUntil func T (play func wait calls (fresh t0 x)))
            `sublist_of` (snd <$> calls)) as Hsub.
  { apply fromCalls_invoked, runUntil_fromCalls.
    apply (play_fromCalls [] calls). left. by split. }
  split; [exact Hsub|]. apply sublist_length in Hsub. by rewrite length_fmap in Hsub.
Qed.

(** ** Debounce: a burst of calls *)






End debounce_sessions.



Lemma debounce_one_timer_witness :
  oneTimer (fresh 0 ([] : list nat) : @Debounce.Loop nat (list nat)) ∧
  oneTimer (play cons 250 [(0%Z, 1); (700%Z, 2); (100%Z, 3)] (fresh 0 ([] : list nat))).
Proof.
  assert (oneTimer (fresh 0 ([] : list nat) : @Debounce.Loop nat (list nat))) as Hone
    by by left.
  split; [exact Hone|]. apply (debounce_one_timer cons 250 _ Hone).
Defined.
